(** * Gridworld MDP and value iteration (mdp.py)

    A shallow embedding of [mdp.py]: the class [MDP] (grid states, the
    transition kernel with wall bounce, the reward lookup) and the solver
    [value_iteration].

    Modelling choices.
    - Coordinates are Python integers: [Z].
    - Python numbers (the [int] literals [0] and the [float] probabilities,
      rewards and utilities) are modelled as exact rationals [Q]; numeric
      equalities are stated with [==] ([Qeq]).  Rounding of binary floating
      point is outside this model.
    - Actions are the strings of the source.
    - A [dict] is an association list in insertion order; subscripting a
      missing key raises [KeyError], [.get(k, d)] does not.
    - Code that can raise lives in the [result] monad; the [while True] loop
      of [value_iteration] takes fuel and answers [None] when it runs out.
    - Module [B64] is the same code over binary64 floating point (Rocq's
      primitive floats, round to nearest even, as Python's [float]): it is
      the model for the statements that rounding decides.  There every
      number is a [float]; a Python [int] among the inputs stands for its
      float value, so the [OverflowError] of converting an [int] beyond
      the float range is outside both models. *)

From Stdlib Require Import String Bool ZArith QArith Qabs Qminmax List FinFun Lia Lqa.
From Stdlib Require Import Floats.
From Stdlib Require Import Setoid Morphisms.
Import ListNotations.

Local Open Scope Z_scope.

(** ** Python values *)

Definition state : Type := (Z * Z)%type.
Definition action : Type := string.

Definition state_eqb (s t : state) : bool :=
  (fst s =? fst t) && (snd s =? snd t).

(** Exceptions the modelled code can raise. *)
Inductive exn : Type :=
| KeyError (* d[k] with k absent *)
| ValueError (* max() of an empty sequence *).

Inductive result (A : Type) : Type :=
| Ok (a : A)
| Raise (e : exn).
Arguments Ok {A} a.
Arguments Raise {A} e.

Definition bind {A B} (m : result A) (k : A -> result B) : result B :=
  match m with
  | Ok a => k a
  | Raise e => Raise e
  end.

Notation "x <- m ;; k" := (bind m (fun x => k))
  (at level 61, m at next level, right associativity).
Notation "' pat <- m ;; k" := (bind m (fun x => match x with pat => k end))
  (at level 61, pat pattern, m at next level, right associativity).

(** [for x in xs: acc = body(acc, x)] where the body may raise. *)
Fixpoint for_each {A B} (body : A -> B -> result A) (xs : list B) (acc : A)
  : result A :=
  match xs with
  | [] => Ok acc
  | x :: xs' => acc' <- body acc x ;; for_each body xs' acc'
  end.

(** [range(n)] *)
Definition range (n : Z) : list Z := map Z.of_nat (seq 0 (Z.to_nat n)).

(** ** Dictionaries *)

Module Dict.

Definition t (V : Type) : Type := list (state * V).

(** [d.get(k)] as an option *)
Fixpoint find {V} (d : t V) (k : state) : option V :=
  match d with
  | [] => None
  | (k', v) :: d' => if state_eqb k' k then Some v else find d' k
  end.

(** [d.get(k, default)] *)
Definition get {V} (d : t V) (k : state) (default : V) : V :=
  match find d k with
  | Some v => v
  | None => default
  end.

(** [d[k]] *)
Definition subscript {V} (d : t V) (k : state) : result V :=
  match find d k with
  | Some v => Ok v
  | None => Raise KeyError
  end.

(** [d[k] = v]: an existing key keeps its place, a new key goes last. *)
Fixpoint set {V} (d : t V) (k : state) (v : V) : t V :=
  match d with
  | [] => [(k, v)]
  | (k', v') :: d' =>
      if state_eqb k' k then (k', v) :: d' else (k', v') :: set d' k v
  end.

(** [{k: v for k in ks}] *)
Definition from_keys {V} (ks : list state) (v : V) : t V :=
  fold_left (fun d k => set d k v) ks [].

(** [d.copy()]: dictionaries are values here, a copy is the dictionary. *)
Definition copy {V} (d : t V) : t V := d.

Definition keys {V} (d : t V) : list state := map fst d.

End Dict.

(** ** class MDP *)

Record MDP : Type := {
  nrows : Z;
  ncols : Z;
  states : list state;
  rewards : Dict.t Q;
  terminals : list state;
  prob_forw : Q;
  prob_side : Q;
  reward_def : Q;
  actions : list action
}.

(** The two nested loops of [__init__] that fill [self.states]. *)
Definition build_states (num_rows num_cols : Z) : list state :=
  fold_left
    (fun sts i =>
       fold_left (fun sts' j => sts' ++ [(i + 1, j + 1)]) (range num_rows) sts)
    (range num_cols) [].

(** [MDP.__init__] *)
Definition MDP_init (num_rows num_cols : Z) (rewards : Dict.t Q)
    (terminals : list state) (prob_forw prob_side reward_default : Q) : MDP :=
  {| nrows := num_rows;
     ncols := num_cols;
     states := build_states num_rows num_cols;
     rewards := rewards;
     terminals := terminals;
     prob_forw := prob_forw;
     prob_side := prob_side;
     reward_def := reward_default;
     actions := ["up"; "right"; "down"; "left"]%string |}.

Definition get_states (mdp : MDP) : list state := states mdp.

Definition get_actions (mdp : MDP) (s : state) : list action := actions mdp.

(** [state in self.terminals] *)
Definition is_terminal (mdp : MDP) (s : state) : bool :=
  existsb (state_eqb s) (terminals mdp).

(** [self.rewards.get(state, self.reward_def)] *)
Definition get_reward (mdp : MDP) (s : state) : Q :=
  Dict.get (rewards mdp) s (reward_def mdp).

(** The four candidate successors computed at the top of
    [get_transition_prob]. *)
Definition succ_up (mdp : MDP) (s : state) : state :=
  let '(x, y) := s in (x, Z.min (nrows mdp) (y + 1)).
Definition succ_right (mdp : MDP) (s : state) : state :=
  let '(x, y) := s in (Z.min (ncols mdp) (x + 1), y).
Definition succ_down (mdp : MDP) (s : state) : state :=
  let '(x, y) := s in (x, Z.max 1 (y - 1)).
Definition succ_left (mdp : MDP) (s : state) : state :=
  let '(x, y) := s in (Z.max 1 (x - 1), y).

(** [defaultdict(float)]: [d[k] += v] reads 0.0 for an absent key. *)
Definition dd_add (d : Dict.t Q) (k : state) (v : Q) : Dict.t Q :=
  Dict.set d k (Dict.get d k 0 + v)%Q.

(** The [if]/[elif] chain on [action]; an unknown action leaves the
    accumulator empty. *)
Definition succ__prob (mdp : MDP) (s : state) (a : action) : Dict.t Q :=
  let d := [] in
  if String.eqb a "up" then
    let d := Dict.set d (succ_up mdp s) (prob_forw mdp) in
    let d := dd_add d (succ_right mdp s) (prob_side mdp) in
    dd_add d (succ_left mdp s) (prob_side mdp)
  else if String.eqb a "right" then
    let d := Dict.set d (succ_right mdp s) (prob_forw mdp) in
    let d := dd_add d (succ_up mdp s) (prob_side mdp) in
    dd_add d (succ_down mdp s) (prob_side mdp)
  else if String.eqb a "down" then
    let d := Dict.set d (succ_down mdp s) (prob_forw mdp) in
    let d := dd_add d (succ_right mdp s) (prob_side mdp) in
    dd_add d (succ_left mdp s) (prob_side mdp)
  else if String.eqb a "left" then
    let d := Dict.set d (succ_left mdp s) (prob_forw mdp) in
    let d := dd_add d (succ_up mdp s) (prob_side mdp) in
    dd_add d (succ_down mdp s) (prob_side mdp)
  else d.

Definition get_transition_prob (mdp : MDP) (s : state) (a : action)
    (successor_state : state) : Q :=
  if is_terminal mdp s then 0%Q
  else Dict.get (succ__prob mdp s a) successor_state 0%Q.

(** The inner loop of [get_transition_probs]: one action's expectation. *)
Definition expected_utility (mdp : MDP) (s : state) (utility : Dict.t Q)
    (a : action) : result Q :=
  for_each
    (fun sum succs =>
       u <- Dict.subscript utility succs ;;
       Ok (sum + get_transition_prob mdp s a succs * u)%Q)
    (get_states mdp) 0%Q.

Definition get_transition_probs (mdp : MDP) (s : state) (utility : Dict.t Q)
  : result (list Q) :=
  for_each
    (fun transition_probs a =>
       sum <- expected_utility mdp s utility a ;;
       Ok (transition_probs ++ [sum]))
    (get_actions mdp s) [].

(** ** value_iteration *)

Definition Qltb (x y : Q) : bool :=
  if Qlt_le_dec x y then true else false.

(** Python's [max] of a list: the first maximal item; empty raises. *)
Definition py_max (xs : list Q) : result Q :=
  match xs with
  | [] => Raise ValueError
  | x :: xs' => Ok (fold_left (fun m v => if Qltb m v then v else m) xs' x)
  end.

(** The body of [for state in mdp.get_states()]: it reads the snapshot
    [utility] and writes [utility_step] and [delta]. *)
Definition sweep_body (mdp : MDP) (gamma : Q) (utility : Dict.t Q)
    (acc : Dict.t Q * Q) (s : state) : result (Dict.t Q * Q) :=
  let '(utility_step, delta) := acc in
  probs <- get_transition_probs mdp s utility ;;
  m <- py_max probs ;;
  let utility_step := Dict.set utility_step s (get_reward mdp s + gamma * m)%Q in
  new <- Dict.subscript utility_step s ;;
  old <- Dict.subscript utility s ;;
  if Qltb delta (Qabs (new - old)) then
    new' <- Dict.subscript utility_step s ;;
    old' <- Dict.subscript utility s ;;
    Ok (utility_step, Qabs (new' - old'))
  else Ok (utility_step, delta).

(** One pass of the [while] body up to the convergence test. *)
Definition sweep (mdp : MDP) (gamma : Q) (utility_step : Dict.t Q)
  : result (Dict.t Q * Dict.t Q * Q) :=
  let utility := Dict.copy utility_step in
  '(utility_step', delta) <-
     for_each (sweep_body mdp gamma utility) (get_states mdp) (utility_step, 0%Q) ;;
  Ok (utility, utility_step', delta).

(** The local variables of [value_iteration] when the loop is left. *)
Record vi_locals : Type := {
  utility : Dict.t Q;
  utility_step : Dict.t Q;
  delta : Q
}.

Fixpoint vi_loop (fuel : nat) (mdp : MDP) (gamma epsilon : Q)
    (utility_step : Dict.t Q) : option (result vi_locals) :=
  match fuel with
  | O => None
  | S fuel' =>
      match sweep mdp gamma utility_step with
      | Raise e => Some (Raise e)
      | Ok (utility, utility_step', delta) =>
          if Qltb delta epsilon then
            Some (Ok {| utility := utility;
                        utility_step := utility_step';
                        delta := delta |})
          else vi_loop fuel' mdp gamma epsilon utility_step'
      end
  end.

Definition vi_run (fuel : nat) (mdp : MDP) (gamma epsilon : Q)
  : option (result vi_locals) :=
  vi_loop fuel mdp gamma epsilon (Dict.from_keys (get_states mdp) 0%Q).

(** [value_iteration]: [return utility]. *)
Definition value_iteration (fuel : nat) (mdp : MDP) (gamma epsilon : Q)
  : option (result (Dict.t Q)) :=
  match vi_run fuel mdp gamma epsilon with
  | None => None
  | Some (Raise e) => Some (Raise e)
  | Some (Ok l) => Some (Ok (utility l))
  end.

(** ** ascii_grid *)

Definition newline : string := String (Ascii.ascii_of_nat 10) EmptyString.

(** [ascii_grid(vals)]: the six subscripts are the source's, in its order;
    [fmt] stands for Python's formatting of one number with [{:7.4f}]. *)
Definition ascii_grid (fmt : Q -> string) (vals : Dict.t Q) : result string :=
  let row (a b : Q) : string :=
    ("| " ++ fmt a ++ " | " ++ fmt b ++ " | " ++ newline)%string in
  let s := EmptyString in
  let s := (s ++ " ___________________  " ++ newline)%string in
  let s := (s ++ "|         |         | " ++ newline)%string in
  v13 <- Dict.subscript vals (1, 3) ;;
  v23 <- Dict.subscript vals (2, 3) ;;
  let s := (s ++ row v13 v23)%string in
  let s := (s ++ "|_________|_________| " ++ newline)%string in
  let s := (s ++ "|         |         | " ++ newline)%string in
  v12 <- Dict.subscript vals (1, 2) ;;
  v22 <- Dict.subscript vals (2, 2) ;;
  let s := (s ++ row v12 v22)%string in
  let s := (s ++ "|_________|_________| " ++ newline)%string in
  let s := (s ++ "|         |         | " ++ newline)%string in
  v11 <- Dict.subscript vals (1, 1) ;;
  v21 <- Dict.subscript vals (2, 1) ;;
  let s := (s ++ row v11 v21)%string in
  let s := (s ++ "|_________|_________| " ++ newline)%string in
  Ok s.

(** The six cells [ascii_grid] prints. *)
Definition ascii_cells : list state :=
  [(1, 3); (2, 3); (1, 2); (2, 2); (1, 1); (2, 1)].

(** ** Definitions used in the statements *)

Local Open Scope Q_scope.

Definition in_grid (mdp : MDP) (s : state) : Prop :=
  (1 <= fst s <= ncols mdp /\ 1 <= snd s <= nrows mdp)%Z.

(** Probability mass [p] put on [k], seen from [k']. *)
Definition mass (k k' : state) (p : Q) : Q := if state_eqb k k' then p else 0.

(** The intended successor and the two side successors of an action, as the
    branches of [get_transition_prob] pick them. *)
Definition outcomes (mdp : MDP) (s : state) (a : action)
  : option (state * state * state) :=
  if String.eqb a "up" then
    Some (succ_up mdp s, succ_right mdp s, succ_left mdp s)
  else if String.eqb a "right" then
    Some (succ_right mdp s, succ_up mdp s, succ_down mdp s)
  else if String.eqb a "down" then
    Some (succ_down mdp s, succ_right mdp s, succ_left mdp s)
  else if String.eqb a "left" then
    Some (succ_left mdp s, succ_up mdp s, succ_down mdp s)
  else None.

Definition sumQ (l : list Q) : Q := fold_right Qplus 0 l.

(** The utility a mapping gives a state, 0 where it has no entry. *)
Definition lookup (U : Dict.t Q) (s : state) : Q := Dict.get U s 0.

Definition has_keys (U : Dict.t Q) (ks : list state) : Prop :=
  forall s, In s ks -> Dict.find U s <> None.

(** The first maximal item of a list, as [py_max] finds it. *)
Definition max_step (m v : Q) : Q := if Qltb m v then v else m.

Definition max_list (xs : list Q) : Q :=
  match xs with
  | [] => 0
  | x :: xs' => fold_left max_step xs' x
  end.

(** What the loops of a sweep compute when no exception occurs: the
    expectation of one action, the new utility of one state, and the new
    [delta] after one state. *)
Definition expect_code (mdp : MDP) (utility : Dict.t Q) (s : state)
    (a : action) : Q :=
  fold_left
    (fun sum succs => sum + get_transition_prob mdp s a succs * lookup utility succs)
    (get_states mdp) 0.

Definition backup_code (mdp : MDP) (gamma : Q) (utility : Dict.t Q)
    (s : state) : Q :=
  get_reward mdp s
  + gamma * max_list (map (expect_code mdp utility s) (actions mdp)).

Definition delta_step (mdp : MDP) (gamma : Q) (utility : Dict.t Q)
    (delta : Q) (s : state) : Q :=
  if Qltb delta (Qabs (backup_code mdp gamma utility s - lookup utility s))
  then Qabs (backup_code mdp gamma utility s - lookup utility s)
  else delta.

(** [gamma ^ n], the factor by which [n] sweeps shrink [delta]. *)
Fixpoint Qpow_nat (q : Q) (n : nat) : Q :=
  match n with
  | O => 1
  | S n' => q * Qpow_nat q n'
  end.

(** ** The Bellman backup as the specification writes it *)

(** [expectedUtilityPerAction]: the sum over successors of
    [transitionProb(state, a, successor) * utility[successor]]. *)
Definition spec_expected_utility (mdp : MDP) (U : state -> Q) (s : state)
    (a : action) : Q :=
  sumQ (map (fun s' => get_transition_prob mdp s a s' * U s') (get_states mdp)).

(** [reward(s) + gamma * max] over the four actions of the expected
    utility. *)
Definition spec_bellman_backup (mdp : MDP) (gamma : Q) (U : state -> Q)
    (s : state) : Q :=
  get_reward mdp s
  + gamma * Qmax (spec_expected_utility mdp U s "up"%string)
              (Qmax (spec_expected_utility mdp U s "right"%string)
                 (Qmax (spec_expected_utility mdp U s "down"%string)
                    (spec_expected_utility mdp U s "left"%string))).

(** ** Example grids *)

(** The repository's own example grid. *)
Definition gridworld : MDP :=
  MDP_init 3 2 [((1, 3)%Z, -2); ((2, 3)%Z, 2)] [(1, 3)%Z; (2, 3)%Z]
    (8#10) (1#10) 0.

(** The 1 x 2 grid of the concrete scenario: (2, 1) is terminal with
    reward 10, moves are deterministic. *)
Definition mdp12 : MDP :=
  MDP_init 1 2 [((2, 1)%Z, 10)] [(2, 1)%Z] 1 0 0.

(** Its utilities sweep by sweep for gamma = 0.9, as the code computes
    them. *)
Definition U0 : Dict.t Q := [((1, 1)%Z, 0); ((2, 1)%Z, 0)].
Definition U1 : Dict.t Q := [((1, 1)%Z, 0#10); ((2, 1)%Z, 100#10)].
Definition U2 : Dict.t Q := [((1, 1)%Z, 9000#1000); ((2, 1)%Z, 10000#1000)].
Definition U3 : Dict.t Q :=
  [((1, 1)%Z, 90000000#10000000); ((2, 1)%Z, 100000000#10000000)].

(** The script under [if __name__ == "__main__"]: the mapping computed for
    [gridworld] is handed to [ascii_grid]; the text is what [print] gets. *)
Definition GAMMA : Q := 9#10.
Definition EPSILON : Q := 1#100.

Definition main (fmt : Q -> string) (fuel : nat) : option (result string) :=
  match value_iteration fuel gridworld GAMMA EPSILON with
  | None => None
  | Some (Raise e) => Some (Raise e)
  | Some (Ok utilities) => Some (ascii_grid fmt utilities)
  end.

Local Close Scope Q_scope.

(** * The same code over binary64 *)

Module B64.

Local Open Scope float_scope.

Record MDP : Type := {
  nrows : Z;
  ncols : Z;
  states : list state;
  rewards : Dict.t float;
  terminals : list state;
  prob_forw : float;
  prob_side : float;
  reward_def : float;
  actions : list action
}.

(** [MDP.__init__] *)
Definition MDP_init (num_rows num_cols : Z) (rewards : Dict.t float)
    (terminals : list state) (prob_forw prob_side reward_default : float)
  : MDP :=
  {| nrows := num_rows;
     ncols := num_cols;
     states := build_states num_rows num_cols;
     rewards := rewards;
     terminals := terminals;
     prob_forw := prob_forw;
     prob_side := prob_side;
     reward_def := reward_default;
     actions := ["up"; "right"; "down"; "left"]%string |}.

Definition get_states (mdp : MDP) : list state := states mdp.

Definition get_actions (mdp : MDP) (s : state) : list action := actions mdp.

Definition is_terminal (mdp : MDP) (s : state) : bool :=
  existsb (state_eqb s) (terminals mdp).

Definition get_reward (mdp : MDP) (s : state) : float :=
  Dict.get (rewards mdp) s (reward_def mdp).

Definition succ_up (mdp : MDP) (s : state) : state :=
  let '(x, y) := s in (x, Z.min (nrows mdp) (y + 1)).
Definition succ_right (mdp : MDP) (s : state) : state :=
  let '(x, y) := s in (Z.min (ncols mdp) (x + 1), y).
Definition succ_down (mdp : MDP) (s : state) : state :=
  let '(x, y) := s in (x, Z.max 1 (y - 1)).
Definition succ_left (mdp : MDP) (s : state) : state :=
  let '(x, y) := s in (Z.max 1 (x - 1), y).

(** [defaultdict(float)]: [d[k] += v] reads 0.0 for an absent key. *)
Definition dd_add (d : Dict.t float) (k : state) (v : float) : Dict.t float :=
  Dict.set d k (Dict.get d k 0 + v).

Definition succ__prob (mdp : MDP) (s : state) (a : action) : Dict.t float :=
  let d := [] in
  if String.eqb a "up" then
    let d := Dict.set d (succ_up mdp s) (prob_forw mdp) in
    let d := dd_add d (succ_right mdp s) (prob_side mdp) in
    dd_add d (succ_left mdp s) (prob_side mdp)
  else if String.eqb a "right" then
    let d := Dict.set d (succ_right mdp s) (prob_forw mdp) in
    let d := dd_add d (succ_up mdp s) (prob_side mdp) in
    dd_add d (succ_down mdp s) (prob_side mdp)
  else if String.eqb a "down" then
    let d := Dict.set d (succ_down mdp s) (prob_forw mdp) in
    let d := dd_add d (succ_right mdp s) (prob_side mdp) in
    dd_add d (succ_left mdp s) (prob_side mdp)
  else if String.eqb a "left" then
    let d := Dict.set d (succ_left mdp s) (prob_forw mdp) in
    let d := dd_add d (succ_up mdp s) (prob_side mdp) in
    dd_add d (succ_down mdp s) (prob_side mdp)
  else d.

Definition get_transition_prob (mdp : MDP) (s : state) (a : action)
    (successor_state : state) : float :=
  if is_terminal mdp s then 0
  else Dict.get (succ__prob mdp s a) successor_state 0.

Definition expected_utility (mdp : MDP) (s : state) (utility : Dict.t float)
    (a : action) : result float :=
  for_each
    (fun sum succs =>
       u <- Dict.subscript utility succs ;;
       Ok (sum + get_transition_prob mdp s a succs * u))
    (get_states mdp) 0.

Definition get_transition_probs (mdp : MDP) (s : state)
    (utility : Dict.t float) : result (list float) :=
  for_each
    (fun transition_probs a =>
       sum <- expected_utility mdp s utility a ;;
       Ok (transition_probs ++ [sum]))
    (get_actions mdp s) [].

(** Python's [max]: an item replaces the current maximum when it compares
    greater. *)
Definition py_max (xs : list float) : result float :=
  match xs with
  | [] => Raise ValueError
  | x :: xs' => Ok (fold_left (fun m v => if m <? v then v else m) xs' x)
  end.

Definition sweep_body (mdp : MDP) (gamma : float) (utility : Dict.t float)
    (acc : Dict.t float * float) (s : state) : result (Dict.t float * float) :=
  let '(utility_step, delta) := acc in
  probs <- get_transition_probs mdp s utility ;;
  m <- py_max probs ;;
  let utility_step := Dict.set utility_step s (get_reward mdp s + gamma * m) in
  new <- Dict.subscript utility_step s ;;
  old <- Dict.subscript utility s ;;
  if delta <? abs (new - old) then
    new' <- Dict.subscript utility_step s ;;
    old' <- Dict.subscript utility s ;;
    Ok (utility_step, abs (new' - old'))
  else Ok (utility_step, delta).

Definition sweep (mdp : MDP) (gamma : float) (utility_step : Dict.t float)
  : result (Dict.t float * Dict.t float * float) :=
  let utility := Dict.copy utility_step in
  '(utility_step', delta) <-
     for_each (sweep_body mdp gamma utility) (get_states mdp) (utility_step, 0) ;;
  Ok (utility, utility_step', delta).

Record vi_locals : Type := {
  utility : Dict.t float;
  utility_step : Dict.t float;
  delta : float
}.

Fixpoint vi_loop (fuel : nat) (mdp : MDP) (gamma epsilon : float)
    (utility_step : Dict.t float) : option (result vi_locals) :=
  match fuel with
  | O => None
  | S fuel' =>
      match sweep mdp gamma utility_step with
      | Raise e => Some (Raise e)
      | Ok (utility, utility_step', delta) =>
          if delta <? epsilon then
            Some (Ok {| utility := utility;
                        utility_step := utility_step';
                        delta := delta |})
          else vi_loop fuel' mdp gamma epsilon utility_step'
      end
  end.

Definition vi_run (fuel : nat) (mdp : MDP) (gamma epsilon : float)
  : option (result vi_locals) :=
  vi_loop fuel mdp gamma epsilon (Dict.from_keys (get_states mdp) 0).

(** [value_iteration]: [return utility]. *)
Definition value_iteration (fuel : nat) (mdp : MDP) (gamma epsilon : float)
  : option (result (Dict.t float)) :=
  match vi_run fuel mdp gamma epsilon with
  | None => None
  | Some (Raise e) => Some (Raise e)
  | Some (Ok l) => Some (Ok (utility l))
  end.

(** ** Definitions used in the statements about binary64 *)

Definition in_grid (mdp : MDP) (s : state) : Prop :=
  (1 <= fst s <= ncols mdp /\ 1 <= snd s <= nrows mdp)%Z.

Definition outcomes (mdp : MDP) (s : state) (a : action)
  : option (state * state * state) :=
  if String.eqb a "up" then
    Some (succ_up mdp s, succ_right mdp s, succ_left mdp s)
  else if String.eqb a "right" then
    Some (succ_right mdp s, succ_up mdp s, succ_down mdp s)
  else if String.eqb a "down" then
    Some (succ_down mdp s, succ_right mdp s, succ_left mdp s)
  else if String.eqb a "left" then
    Some (succ_left mdp s, succ_up mdp s, succ_down mdp s)
  else None.

(** The exact value of a finite float; 0 for an infinity or a NaN. *)
Definition F2Q (x : float) : Q :=
  match Prim2SF x with
  | S754_finite s m e =>
      (inject_Z (if s then Z.neg m else Z.pos m) * Qpower (2#1) e)%Q
  | _ => 0%Q
  end.


Definition lookup (U : Dict.t float) (s : state) : float := Dict.get U s 0.

Definition has_keys (U : Dict.t float) (ks : list state) : Prop :=
  forall s, In s ks -> Dict.find U s <> None.

Definition max_step (m v : float) : float := if m <? v then v else m.

Definition max_list (xs : list float) : float :=
  match xs with
  | [] => 0
  | x :: xs' => fold_left max_step xs' x
  end.

(** What the loops of a sweep compute when no exception occurs. *)
Definition expect_code (mdp : MDP) (utility : Dict.t float) (s : state)
    (a : action) : float :=
  fold_left
    (fun sum succs => sum + get_transition_prob mdp s a succs * lookup utility succs)
    (get_states mdp) 0.

Definition backup_code (mdp : MDP) (gamma : float) (utility : Dict.t float)
    (s : state) : float :=
  get_reward mdp s
  + gamma * max_list (map (expect_code mdp utility s) (actions mdp)).

Definition delta_step (mdp : MDP) (gamma : float) (utility : Dict.t float)
    (delta : float) (s : state) : float :=
  if delta <? abs (backup_code mdp gamma utility s - lookup utility s)
  then abs (backup_code mdp gamma utility s - lookup utility s)
  else delta.

(** The Bellman backup of the specification evaluated without rounding on
    the binary64 data: rewards, discount, transition probabilities and
    utilities are taken at their exact values. *)
Definition exact_expected_utility (mdp : MDP) (U : Dict.t float) (s : state)
    (a : action) : Q :=
  sumQ (map (fun s' => F2Q (get_transition_prob mdp s a s') * F2Q (lookup U s'))%Q
          (get_states mdp)).

Definition exact_bellman_backup (mdp : MDP) (gamma : float) (U : Dict.t float)
    (s : state) : Q :=
  (F2Q (get_reward mdp s)
   + F2Q gamma * Qmax (exact_expected_utility mdp U s "up"%string)
                   (Qmax (exact_expected_utility mdp U s "right"%string)
                      (Qmax (exact_expected_utility mdp U s "down"%string)
                         (exact_expected_utility mdp U s "left"%string))))%Q.

(** ** Example data *)

(** The decimal literals of the examples, as the binary64 numbers Python
    reads them as. *)
Definition dec_0_8 : float := 0x1.999999999999ap-1.
Definition dec_0_1 : float := 0x1.999999999999ap-4.
Definition dec_0_9 : float := 0x1.ccccccccccccdp-1.

(** [MDP(1, 1, {(1, 1): 1}, [], .8, .1)] *)
Definition grid11 : MDP := MDP_init 1 1 [((1, 1)%Z, 1)] [] dec_0_8 dec_0_1 0.



End B64.

(** * Properties *)

(** ** Equality of states *)

Lemma state_eqb_spec (s t : state) : reflect (s = t) (state_eqb s t).
Proof.
  destruct s as [x y], t as [x' y']; unfold state_eqb; simpl.
  destruct (Z.eqb_spec x x'), (Z.eqb_spec y y'); simpl; constructor; congruence.
Qed.

Lemma state_eqb_refl (s : state) : state_eqb s s = true.
Proof. destruct (state_eqb_spec s s); congruence. Qed.

Lemma state_eqb_neq (s t : state) : s <> t -> state_eqb s t = false.
Proof. destruct (state_eqb_spec s t); congruence. Qed.

Lemma state_eq_dec (s t : state) : {s = t} + {s <> t}.
Proof. destruct (state_eqb_spec s t); auto. Qed.

(** ** The state list *)

Lemma nth_error_range (n : Z) (k : nat) :
  (k < Z.to_nat n)%nat -> nth_error (range n) k = Some (Z.of_nat k).
Proof.
  intros Hk. unfold range.
  rewrite nth_error_map, nth_error_seq.
  destruct (Nat.ltb_spec k (Z.to_nat n)); [reflexivity | lia].
Qed.

Lemma length_range (n : Z) : length (range n) = Z.to_nat n.
Proof. unfold range. now rewrite length_map, length_seq. Qed.

Lemma in_range (n k : Z) : In k (range n) <-> 0 <= k < n.
Proof.
  unfold range. rewrite in_map_iff. split.
  - intros (m & <- & Hm). apply in_seq in Hm. lia.
  - intros Hk. exists (Z.to_nat k). split; [lia |]. apply in_seq. lia.
Qed.

Lemma NoDup_range (n : Z) : NoDup (range n).
Proof.
  unfold range. apply Injective_map_NoDup.
  - intros a b. apply Nat2Z.inj.
  - apply seq_NoDup.
Qed.

Lemma inner_loop_append (i : Z) (js : list Z) (acc : list state) :
  fold_left (fun sts' j => sts' ++ [(i + 1, j + 1)]) js acc
  = acc ++ map (fun j => (i + 1, j + 1)) js.
Proof.
  revert acc. induction js as [| j js IH]; intros acc; simpl.
  - now rewrite app_nil_r.
  - rewrite IH, <- app_assoc. reflexivity.
Qed.

Lemma outer_loop_append (num_rows : Z) (cols : list Z) (acc : list state) :
  fold_left
    (fun sts i =>
       fold_left (fun sts' j => sts' ++ [(i + 1, j + 1)]) (range num_rows) sts)
    cols acc
  = acc ++ flat_map (fun i => map (fun j => (i + 1, j + 1)) (range num_rows)) cols.
Proof.
  revert acc. induction cols as [| i cols IH]; intros acc; simpl.
  - now rewrite app_nil_r.
  - rewrite IH, inner_loop_append, <- app_assoc. reflexivity.
Qed.

Lemma build_states_flat_map (num_rows num_cols : Z) :
  build_states num_rows num_cols
  = flat_map (fun i => map (fun j => (i + 1, j + 1)) (range num_rows))
      (range num_cols).
Proof. unfold build_states. now rewrite outer_loop_append. Qed.

Lemma nth_error_flat_map_blocks {A B} (f : A -> list B) (n : nat) (l : list A) :
  (forall a, length (f a) = n) ->
  forall i j, (j < n)%nat ->
    nth_error (flat_map f l) (i * n + j)
    = match nth_error l i with
      | Some a => nth_error (f a) j
      | None => None
      end.
Proof.
  intros Hlen. induction l as [| a l IH]; intros i j Hj; simpl.
  - destruct i; simpl; now rewrite nth_error_nil.
  - destruct i as [| i]; simpl.
    + apply nth_error_app1. rewrite Hlen. exact Hj.
    + rewrite nth_error_app2 by (rewrite Hlen; lia).
      rewrite Hlen. replace (n + i * n + j - n)%nat with (i * n + j)%nat by lia.
      apply IH, Hj.
Qed.

Lemma in_build_states (num_rows num_cols x y : Z) :
  In (x, y) (build_states num_rows num_cols)
  <-> 1 <= x <= num_cols /\ 1 <= y <= num_rows.
Proof.
  rewrite build_states_flat_map, in_flat_map. split.
  - intros (i & Hi & Hin). apply in_map_iff in Hin as (j & Heq & Hj).
    apply in_range in Hi. apply in_range in Hj. inversion Heq; subst. lia.
  - intros [Hx Hy]. exists (x - 1). split; [apply in_range; lia |].
    apply in_map_iff. exists (y - 1). split; [f_equal; lia | apply in_range; lia].
Qed.

Lemma NoDup_build_states (num_rows num_cols : Z) :
  NoDup (build_states num_rows num_cols).
Proof.
  rewrite build_states_flat_map.
  generalize (NoDup_range num_cols).
  generalize (range num_cols) as cols.
  induction cols as [| i cols IH]; intros Hnd; simpl; [constructor |].
  inversion Hnd as [| ? ? Hni Hnd']; subst.
  apply NoDup_app.
  - apply Injective_map_NoDup; [| apply NoDup_range].
    intros a b Hab. inversion Hab. lia.
  - apply IH, Hnd'.
  - intros [x y] Hin Hin'.
    apply in_map_iff in Hin as (j & Heq & _).
    apply in_flat_map in Hin' as (i' & Hi' & Hin').
    apply in_map_iff in Hin' as (j' & Heq' & _).
    inversion Heq; inversion Heq'; subst.
    apply Hni. replace i with i' by lia. exact Hi'.
Qed.

Lemma in_grid_states (num_rows num_cols : Z) rw tm pf ps rd (s : state) :
  In s (get_states (MDP_init num_rows num_cols rw tm pf ps rd))
  <-> in_grid (MDP_init num_rows num_cols rw tm pf ps rd) s.
Proof. destruct s as [x y]. apply in_build_states. Qed.

(** C10: [get_states] is the Cartesian product {1..num_cols} x {1..num_rows},
    without repetition, in column-major order: it has [num_cols * num_rows]
    entries and the entry at index [i * num_rows + j] (0 <= i < num_cols,
    0 <= j < num_rows) is [(i + 1, j + 1)], so x is the outer loop and y the
    inner one. *)
Theorem get_states_column_major (num_rows num_cols : Z) rw tm pf ps rd :
  let mdp := MDP_init num_rows num_cols rw tm pf ps rd in
  (forall x y, In (x, y) (get_states mdp)
               <-> 1 <= x <= num_cols /\ 1 <= y <= num_rows)
  /\ NoDup (get_states mdp)
  /\ length (get_states mdp) = (Z.to_nat num_cols * Z.to_nat num_rows)%nat
  /\ (forall i j, 0 <= i < num_cols -> 0 <= j < num_rows ->
        nth_error (get_states mdp) (Z.to_nat (i * num_rows + j))
        = Some (i + 1, j + 1)).
Proof.
  cbn zeta. unfold get_states; simpl. split; [| split; [| split]].
  - intros x y. apply in_build_states.
  - apply NoDup_build_states.
  - rewrite build_states_flat_map.
    generalize (range num_cols) (length_range num_cols).
    intros l <-. induction l as [| i l IH]; [reflexivity |].
    cbn [flat_map List.length]. rewrite length_app, length_map, length_range.
    change (S (List.length l) * Z.to_nat num_rows)%nat
      with (Z.to_nat num_rows + List.length l * Z.to_nat num_rows)%nat.
    f_equal. exact IH.
  - intros i j Hi Hj. rewrite build_states_flat_map.
    replace (Z.to_nat (i * num_rows + j))
      with (Z.to_nat i * Z.to_nat num_rows + Z.to_nat j)%nat by nia.
    rewrite (nth_error_flat_map_blocks _ (Z.to_nat num_rows)).
    + rewrite nth_error_range by lia.
      rewrite nth_error_map, nth_error_range by lia.
      simpl. f_equal. f_equal; lia.
    + intros a. now rewrite length_map, length_range.
    + lia.
Qed.

Lemma get_states_column_major_witness :
  get_states gridworld
  = [(1, 1); (1, 2); (1, 3); (2, 1); (2, 2); (2, 3)]
  /\ nth_error (get_states gridworld) (Z.to_nat (1 * 3 + 2)) = Some (1 + 1, 2 + 1).
Proof.
  split; [reflexivity |].
  destruct (get_states_column_major 3 2 [((1, 3), (-2)%Q); ((2, 3), 2%Q)]
              [(1, 3); (2, 3)] (8#10)%Q (1#10)%Q 0%Q) as (_ & _ & _ & Hnth).
  apply (Hnth 1 2); lia.
Defined.

(** ** Dictionary lemmas *)

Lemma find_set {V} (d : Dict.t V) (k k' : state) (v : V) :
  Dict.find (Dict.set d k v) k'
  = if state_eqb k k' then Some v else Dict.find d k'.
Proof.
  induction d as [| [k0 v0] d IH]; simpl.
  - reflexivity.
  - destruct (state_eqb_spec k0 k) as [-> | Hne]; simpl.
    + destruct (state_eqb k k'); reflexivity.
    + rewrite IH. destruct (state_eqb_spec k0 k') as [-> | Hne'].
      * now rewrite state_eqb_neq by congruence.
      * reflexivity.
Qed.

Lemma find_set_same {V} (d : Dict.t V) (k : state) (v : V) :
  Dict.find (Dict.set d k v) k = Some v.
Proof. now rewrite find_set, state_eqb_refl. Qed.

Lemma find_set_other {V} (d : Dict.t V) (k k' : state) (v : V) :
  k <> k' -> Dict.find (Dict.set d k v) k' = Dict.find d k'.
Proof. intros H. now rewrite find_set, state_eqb_neq. Qed.

Lemma find_none_keys {V} (d : Dict.t V) (k : state) :
  Dict.find d k = None <-> ~ In k (Dict.keys d).
Proof.
  induction d as [| [k0 v0] d IH]; simpl.
  - tauto.
  - destruct (state_eqb_spec k0 k) as [-> | Hne].
    + split; [discriminate | tauto].
    + rewrite IH. tauto.
Qed.

Lemma find_from_keys {V} (ks : list state) (v : V) (k : state) :
  Dict.find (Dict.from_keys ks v) k = if in_dec state_eq_dec k ks then Some v else None.
Proof.
  unfold Dict.from_keys.
  assert (G : forall d,
             Dict.find (fold_left (fun d k => Dict.set d k v) ks d) k
             = if in_dec state_eq_dec k ks then Some v else Dict.find d k).
  { induction ks as [| k0 ks IH]; intros d; simpl; [reflexivity |].
    rewrite IH. destruct (in_dec state_eq_dec k ks) as [Hin | Hnin].
    - destruct (state_eq_dec k0 k); reflexivity.
    - rewrite find_set. destruct (state_eq_dec k0 k) as [-> | Hne].
      + now rewrite state_eqb_refl.
      + now rewrite state_eqb_neq. }
  now rewrite G.
Qed.

(** ** The transition kernel *)

Local Open Scope Q_scope.

Lemma get_dd_add (d : Dict.t Q) (k k' : state) (v : Q) :
  Dict.get (dd_add d k v) k' 0 == Dict.get d k' 0 + mass k k' v.
Proof.
  unfold dd_add, Dict.get, mass. rewrite find_set.
  destruct (state_eqb_spec k k') as [-> | Hne]; lra.
Qed.

Lemma get_three_outcomes (f s1 s2 k' : state) (pf ps : Q) :
  Dict.get (dd_add (dd_add (Dict.set [] f pf) s1 ps) s2 ps) k' 0
  == mass f k' pf + mass s1 k' ps + mass s2 k' ps.
Proof.
  rewrite !get_dd_add. unfold Dict.get, mass. simpl.
  destruct (state_eqb f k'); lra.
Qed.

Lemma get_transition_prob_mass (mdp : MDP) (s : state) (a : action) (s' : state) :
  is_terminal mdp s = false ->
  get_transition_prob mdp s a s'
  == match outcomes mdp s a with
     | Some (f, s1, s2) =>
         mass f s' (prob_forw mdp) + mass s1 s' (prob_side mdp)
         + mass s2 s' (prob_side mdp)
     | None => 0
     end.
Proof.
  intros Hnt. unfold get_transition_prob, succ__prob, outcomes. rewrite Hnt.
  destruct (String.eqb a "up"); [apply get_three_outcomes |].
  destruct (String.eqb a "right"); [apply get_three_outcomes |].
  destruct (String.eqb a "down"); [apply get_three_outcomes |].
  destruct (String.eqb a "left"); [apply get_three_outcomes |].
  reflexivity.
Qed.

Lemma succ_in_grid (mdp : MDP) (s : state) :
  in_grid mdp s ->
  in_grid mdp (succ_up mdp s) /\ in_grid mdp (succ_right mdp s)
  /\ in_grid mdp (succ_down mdp s) /\ in_grid mdp (succ_left mdp s).
Proof.
  destruct s as [x y]. unfold in_grid, succ_up, succ_right, succ_down, succ_left.
  simpl. lia.
Qed.

(** C8: from an in-grid state each candidate successor is the wall-clamped
    neighbour, lies in the grid, and is the state itself when the move
    points into a boundary. *)
Theorem successors_wall_clamped (mdp : MDP) (x y : Z) :
  in_grid mdp (x, y) ->
  (succ_up mdp (x, y) = (x, Z.min (nrows mdp) (y + 1))
   /\ succ_down mdp (x, y) = (x, Z.max 1 (y - 1))
   /\ succ_right mdp (x, y) = (Z.min (ncols mdp) (x + 1), y)
   /\ succ_left mdp (x, y) = (Z.max 1 (x - 1), y))
  /\ (in_grid mdp (succ_up mdp (x, y)) /\ in_grid mdp (succ_down mdp (x, y))
      /\ in_grid mdp (succ_right mdp (x, y)) /\ in_grid mdp (succ_left mdp (x, y)))
  /\ ((y = nrows mdp -> succ_up mdp (x, y) = (x, y))
      /\ (y = 1%Z -> succ_down mdp (x, y) = (x, y))
      /\ (x = ncols mdp -> succ_right mdp (x, y) = (x, y))
      /\ (x = 1%Z -> succ_left mdp (x, y) = (x, y))).
Proof.
  intros Hin. split; [| split].
  - repeat split.
  - destruct (succ_in_grid mdp (x, y) Hin) as (? & ? & ? & ?). tauto.
  - unfold in_grid in Hin. simpl in *.
    repeat split; intros ->; f_equal; lia.
Qed.

Lemma successors_wall_clamped_witness :
  in_grid mdp12 (2, 1)%Z
  /\ succ_right mdp12 (2, 1)%Z = (2, 1)%Z
  /\ succ_up mdp12 (2, 1)%Z = (2, 1)%Z
  /\ succ_left mdp12 (2, 1)%Z = (1, 1)%Z.
Proof.
  assert (Hin : in_grid mdp12 (2, 1)%Z) by (unfold in_grid; simpl; lia).
  split; [exact Hin |].
  destruct (successors_wall_clamped mdp12 2 1 Hin)
    as ((_ & _ & _ & Hl) & _ & (Hu & _ & Hr & _)).
  split; [apply Hr; reflexivity |]. split; [apply Hu; reflexivity | exact Hl].
Defined.

Lemma transition_prob_of_terminal (mdp : MDP) (s : state) (a : action) (s' : state) :
  is_terminal mdp s = true -> get_transition_prob mdp s a s' == 0.
Proof. intros Ht. unfold get_transition_prob. rewrite Ht. reflexivity. Qed.

(** C6: out of a terminal state every transition probability is 0. *)
Theorem terminal_absorbing (mdp : MDP) (s : state) (a : action) (s' : state) :
  is_terminal mdp s = true -> get_transition_prob mdp s a s' = 0.
Proof. intros Ht. unfold get_transition_prob. now rewrite Ht. Qed.

Lemma terminal_absorbing_witness :
  is_terminal mdp12 (2, 1)%Z = true
  /\ get_transition_prob mdp12 (2, 1)%Z "left"%string (1, 1)%Z = 0.
Proof.
  split; [reflexivity |].
  apply (terminal_absorbing mdp12 (2, 1)%Z "left"%string (1, 1)%Z). reflexivity.
Defined.

(** C9: the model operations are total, also on a state outside the grid:
    [get_reward] answers the default for a state without override,
    [is_terminal] answers [False] for a state not in the terminal list, and
    [get_transition_prob] answers 0 for a successor that is not a key of the
    accumulated outcomes. *)
Theorem out_of_grid_queries_total (mdp : MDP) (s : state) :
  ~ in_grid mdp s ->
  (Dict.find (rewards mdp) s = None -> get_reward mdp s = reward_def mdp)
  /\ (~ In s (terminals mdp) -> is_terminal mdp s = false)
  /\ (forall a s', ~ In s' (Dict.keys (succ__prob mdp s a)) ->
        get_transition_prob mdp s a s' = 0).
Proof.
  intros _. split; [| split].
  - intros Hf. unfold get_reward, Dict.get. now rewrite Hf.
  - intros Hnin. unfold is_terminal.
    destruct (existsb (state_eqb s) (terminals mdp)) eqn:E; [| reflexivity].
    apply existsb_exists in E as (t & Hin & Heq).
    destruct (state_eqb_spec s t); [subst; contradiction | discriminate].
  - intros a s' Hk. unfold get_transition_prob.
    destruct (is_terminal mdp s); [reflexivity |].
    apply find_none_keys in Hk. unfold Dict.get. now rewrite Hk.
Qed.

Lemma out_of_grid_queries_total_witness :
  ~ in_grid mdp12 (5, 7)%Z
  /\ get_reward mdp12 (5, 7)%Z = 0
  /\ is_terminal mdp12 (5, 7)%Z = false
  /\ get_transition_prob mdp12 (5, 7)%Z "up"%string (1, 1)%Z = 0.
Proof.
  assert (Hout : ~ in_grid mdp12 (5, 7)%Z) by (unfold in_grid; simpl; lia).
  split; [exact Hout |].
  destruct (out_of_grid_queries_total mdp12 (5, 7)%Z Hout) as (Hr & Ht & Hp).
  split; [apply Hr; reflexivity |]. split.
  - apply Ht. simpl. intros [H | []]. discriminate H.
  - apply Hp. vm_compute. intros [H | [H | [H | []]]]; discriminate H.
Defined.

(** ** Probability conservation *)

Lemma sumQ_map_ext {A} (f g : A -> Q) (l : list A) :
  (forall x, In x l -> f x == g x) -> sumQ (map f l) == sumQ (map g l).
Proof.
  induction l as [| x l IH]; intros H; simpl; [reflexivity |].
  rewrite (H x (or_introl eq_refl)), IH; [reflexivity |].
  intros y Hy. apply H. now right.
Qed.

Lemma sumQ_map_plus {A} (f g : A -> Q) (l : list A) :
  sumQ (map (fun x => f x + g x) l) == sumQ (map f l) + sumQ (map g l).
Proof. induction l as [| x l IH]; simpl; [| rewrite IH]; lra. Qed.

Lemma sumQ_mass_absent (k : state) (p : Q) (l : list state) :
  ~ In k l -> sumQ (map (fun k' => mass k k' p) l) == 0.
Proof.
  induction l as [| x l IH]; intros Hnin; simpl; [reflexivity |].
  unfold mass at 1. rewrite state_eqb_neq by (intros ->; apply Hnin; now left).
  rewrite IH by (intros Hin; apply Hnin; now right). lra.
Qed.

Lemma sumQ_mass_present (k : state) (p : Q) (l : list state) :
  NoDup l -> In k l -> sumQ (map (fun k' => mass k k' p) l) == p.
Proof.
  induction 1 as [| x l Hnin Hnd IH]; intros Hin; simpl; [contradiction |].
  unfold mass at 1. destruct (state_eqb_spec k x) as [-> | Hne].
  - rewrite sumQ_mass_absent by exact Hnin. lra.
  - rewrite IH by (destruct Hin; congruence). lra.
Qed.

Lemma outcomes_in_grid (mdp : MDP) (s : state) (a : action) f s1 s2 :
  in_grid mdp s -> outcomes mdp s a = Some (f, s1, s2) ->
  in_grid mdp f /\ in_grid mdp s1 /\ in_grid mdp s2.
Proof.
  intros Hin. destruct (succ_in_grid mdp s Hin) as (Hu & Hr & Hd & Hl).
  unfold outcomes.
  repeat match goal with
         | |- (if ?b then _ else _) = _ -> _ => destruct b
         end; intros H; inversion H; subst; auto.
Qed.

Lemma outcomes_of_action num_rows num_cols rw tm pf ps rd (s : state) (a : action) :
  In a (get_actions (MDP_init num_rows num_cols rw tm pf ps rd) s) ->
  outcomes (MDP_init num_rows num_cols rw tm pf ps rd) s a <> None.
Proof.
  simpl. intros [<- | [<- | [<- | [<- | []]]]]; discriminate.
Qed.

(** ** One sweep *)

Lemma Qltb_true (x y : Q) : Qltb x y = true <-> x < y.
Proof. unfold Qltb. destruct (Qlt_le_dec x y); split; (congruence || lra). Qed.

Lemma Qltb_false (x y : Q) : Qltb x y = false <-> y <= x.
Proof. unfold Qltb. destruct (Qlt_le_dec x y); split; (congruence || lra). Qed.

Lemma subscript_lookup (U : Dict.t Q) (s : state) :
  Dict.find U s <> None -> Dict.subscript U s = Ok (lookup U s).
Proof.
  unfold Dict.subscript, lookup, Dict.get.
  destruct (Dict.find U s); [reflexivity | congruence].
Qed.

Lemma find_lookup (U : Dict.t Q) (s : state) :
  Dict.find U s <> None -> Dict.find U s = Some (lookup U s).
Proof.
  unfold lookup, Dict.get. destruct (Dict.find U s); [reflexivity | congruence].
Qed.

Section Sweep.

Variables (mdp : MDP) (gamma : Q) (utility : Dict.t Q).
Hypothesis Hkeys : has_keys utility (get_states mdp).
Hypothesis Hact : actions mdp <> [].

Lemma expected_utility_ok (s : state) (a : action) :
  expected_utility mdp s utility a = Ok (expect_code mdp utility s a).
Proof.
  unfold expected_utility, expect_code.
  generalize 0 as acc. revert Hkeys. unfold has_keys.
  generalize (get_states mdp) as l.
  induction l as [| s' l IH]; intros Hk acc; simpl; [reflexivity |].
  rewrite subscript_lookup by (apply Hk; now left). simpl.
  apply IH. intros k Hin. apply Hk. now right.
Qed.

Lemma get_transition_probs_ok (s : state) :
  get_transition_probs mdp s utility
  = Ok (map (expect_code mdp utility s) (actions mdp)).
Proof.
  unfold get_transition_probs, get_actions.
  assert (G : forall l acc,
             for_each
               (fun transition_probs a =>
                  sum <- expected_utility mdp s utility a ;;
                  Ok (transition_probs ++ [sum])) l acc
             = Ok (acc ++ map (expect_code mdp utility s) l)).
  { induction l as [| a l IH]; intros acc; simpl.
    - now rewrite app_nil_r.
    - rewrite expected_utility_ok. simpl. rewrite IH, <- app_assoc. reflexivity. }
  apply G.
Qed.

Lemma py_max_ok (s : state) :
  py_max (map (expect_code mdp utility s) (actions mdp))
  = Ok (max_list (map (expect_code mdp utility s) (actions mdp))).
Proof. destruct (actions mdp); [congruence | reflexivity]. Qed.

Lemma sweep_body_ok (us : Dict.t Q) (delta : Q) (s : state) :
  In s (get_states mdp) ->
  sweep_body mdp gamma utility (us, delta) s
  = Ok (Dict.set us s (backup_code mdp gamma utility s),
        delta_step mdp gamma utility delta s).
Proof.
  intros Hin. unfold sweep_body.
  rewrite get_transition_probs_ok. cbn [bind].
  rewrite py_max_ok. cbn [bind]. fold (backup_code mdp gamma utility s).
  unfold Dict.subscript at 1 3. rewrite find_set_same. cbn [bind].
  rewrite subscript_lookup by (apply Hkeys, Hin). cbn [bind].
  unfold delta_step. destruct (Qltb delta _); reflexivity.
Qed.

Lemma for_each_sweep_ok (l : list state) (us : Dict.t Q) (delta : Q) :
  incl l (get_states mdp) ->
  for_each (sweep_body mdp gamma utility) l (us, delta)
  = Ok (fold_left (fun d s => Dict.set d s (backup_code mdp gamma utility s)) l us,
        fold_left (delta_step mdp gamma utility) l delta).
Proof.
  revert us delta.
  induction l as [| s l IH]; intros us delta Hincl; cbn [for_each fold_left].
  - reflexivity.
  - rewrite sweep_body_ok by (apply Hincl; now left). cbn [bind].
    apply IH. intros k Hk. apply Hincl. now right.
Qed.

Lemma sweep_ok :
  sweep mdp gamma utility
  = Ok (utility,
        fold_left (fun d s => Dict.set d s (backup_code mdp gamma utility s))
          (get_states mdp) utility,
        fold_left (delta_step mdp gamma utility) (get_states mdp) 0).
Proof.
  unfold sweep, Dict.copy. rewrite for_each_sweep_ok by apply incl_refl.
  reflexivity.
Qed.

Lemma find_fold_set (l : list state) (us : Dict.t Q) (k : state) :
  Dict.find
    (fold_left (fun d s => Dict.set d s (backup_code mdp gamma utility s)) l us) k
  = if in_dec state_eq_dec k l
    then Some (backup_code mdp gamma utility k)
    else Dict.find us k.
Proof.
  revert us. induction l as [| s l IH]; intros us; simpl; [reflexivity |].
  rewrite IH. destruct (in_dec state_eq_dec k l) as [Hin | Hnin].
  - destruct (state_eq_dec s k); reflexivity.
  - rewrite find_set. destruct (state_eq_dec s k) as [-> | Hne].
    + now rewrite state_eqb_refl.
    + now rewrite state_eqb_neq.
Qed.

Lemma delta_step_ge (delta : Q) (s : state) :
  delta <= delta_step mdp gamma utility delta s
  /\ Qabs (backup_code mdp gamma utility s - lookup utility s)
     <= delta_step mdp gamma utility delta s.
Proof.
  unfold delta_step.
  destruct (Qltb delta _) eqn:E;
    [apply Qltb_true in E | apply Qltb_false in E]; lra.
Qed.

Lemma fold_delta_ge (l : list state) (delta : Q) :
  delta <= fold_left (delta_step mdp gamma utility) l delta
  /\ forall s, In s l ->
       Qabs (backup_code mdp gamma utility s - lookup utility s)
       <= fold_left (delta_step mdp gamma utility) l delta.
Proof.
  revert delta. induction l as [| s0 l IH]; intros delta; cbn [fold_left].
  - split; [lra | contradiction].
  - destruct (IH (delta_step mdp gamma utility delta s0)) as [Hge Hall].
    destruct (delta_step_ge delta s0) as [H1 H2].
    split; [eapply Qle_trans; eassumption |].
    intros s [<- | Hin]; [eapply Qle_trans; eassumption | now apply Hall].
Qed.

End Sweep.

(** ** The code's backup refines the specification's *)

Lemma fold_left_sum {A} (f : A -> Q) (l : list A) (acc : Q) :
  fold_left (fun sum x => sum + f x) l acc == acc + sumQ (map f l).
Proof.
  revert acc. induction l as [| x l IH]; intros acc; simpl; [| rewrite IH]; lra.
Qed.

Lemma expect_code_spec (mdp : MDP) (utility : Dict.t Q) (s : state) (a : action) :
  expect_code mdp utility s a
  == spec_expected_utility mdp (lookup utility) s a.
Proof.
  unfold expect_code, spec_expected_utility.
  rewrite (fold_left_sum
             (fun s' => get_transition_prob mdp s a s' * lookup utility s')).
  lra.
Qed.

Lemma max_list_four (a b c d a' b' c' d' : Q) :
  a == a' -> b == b' -> c == c' -> d == d' ->
  max_list [a; b; c; d] == Qmax a' (Qmax b' (Qmax c' d')).
Proof.
  intros Ha Hb Hc Hd. unfold max_list. cbn [fold_left]. unfold max_step.
  destruct (Q.max_spec c' d') as [[? ?] | [? ?]];
    destruct (Q.max_spec b' (Qmax c' d')) as [[? ?] | [? ?]];
    destruct (Q.max_spec a' (Qmax b' (Qmax c' d'))) as [[? ?] | [? ?]];
    destruct (Qltb a b) eqn:E1;
    match goal with |- context [Qltb ?x c] => destruct (Qltb x c) eqn:E2 end;
    match goal with |- context [Qltb ?x d] => destruct (Qltb x d) eqn:E3 end;
    repeat match goal with
           | E : Qltb _ _ = true |- _ => apply Qltb_true in E
           | E : Qltb _ _ = false |- _ => apply Qltb_false in E
           end; lra.
Qed.

Lemma backup_code_spec num_rows num_cols rw tm pf ps rd (gamma : Q)
    (utility : Dict.t Q) (s : state) :
  backup_code (MDP_init num_rows num_cols rw tm pf ps rd) gamma utility s
  == spec_bellman_backup (MDP_init num_rows num_cols rw tm pf ps rd) gamma
       (lookup utility) s.
Proof.
  unfold backup_code, spec_bellman_backup. cbn [actions MDP_init map].
  rewrite (max_list_four _ _ _ _ _ _ _ _
             (expect_code_spec _ utility s "up"%string)
             (expect_code_spec _ utility s "right"%string)
             (expect_code_spec _ utility s "down"%string)
             (expect_code_spec _ utility s "left"%string)).
  reflexivity.
Qed.

(** ** The loop *)

Lemma sweep_snapshot (mdp : MDP) (gamma : Q) (us u us' : Dict.t Q) (d : Q) :
  sweep mdp gamma us = Ok (u, us', d) -> u = us.
Proof.
  unfold sweep, Dict.copy.
  destruct (for_each _ _ _) as [[? ?] |]; simpl; congruence.
Qed.

(** When the loop is left, [utility] is the snapshot the last sweep read,
    [utility_step] and [delta] are what that sweep computed, and the
    snapshot is either the dictionary the loop started from or what the
    sweep before the last one computed. *)
Lemma vi_loop_exit (fuel : nat) (mdp : MDP) (gamma epsilon : Q)
    (us : Dict.t Q) (l : vi_locals) :
  vi_loop fuel mdp gamma epsilon us = Some (Ok l) ->
  sweep mdp gamma (utility l) = Ok (utility l, utility_step l, delta l)
  /\ delta l < epsilon
  /\ (utility l = us
      \/ exists prev d,
           sweep mdp gamma prev = Ok (prev, utility l, d) /\ epsilon <= d).
Proof.
  revert us. induction fuel as [| fuel IH]; intros us; simpl; [discriminate |].
  destruct (sweep mdp gamma us) as [[[u us'] d] | e] eqn:Es; [| discriminate].
  pose proof (sweep_snapshot _ _ _ _ _ _ Es) as ->.
  destruct (Qltb d epsilon) eqn:Ed.
  - intros H. inversion H; subst; simpl.
    apply Qltb_true in Ed. auto.
  - intros H. apply Qltb_false in Ed.
    destruct (IH us' H) as (Hs & Hd & Hprev).
    split; [exact Hs |]. split; [exact Hd |]. right.
    destruct Hprev as [-> | Hprev]; [| exact Hprev].
    exists us, d. auto.
Qed.

Lemma has_keys_from_keys (ks : list state) : has_keys (Dict.from_keys ks 0) ks.
Proof.
  intros s Hin. rewrite find_from_keys.
  destruct (in_dec state_eq_dec s ks); [discriminate | contradiction].
Qed.

Lemma has_keys_sweep (mdp : MDP) (gamma : Q) (u u' us' : Dict.t Q) (d : Q) :
  actions mdp <> [] ->
  has_keys u (get_states mdp) ->
  sweep mdp gamma u = Ok (u', us', d) ->
  has_keys us' (get_states mdp).
Proof.
  intros Hact Hk Hs. rewrite (sweep_ok mdp gamma u Hk Hact) in Hs.
  inversion Hs; subst. intros s Hin. rewrite find_fold_set.
  destruct (in_dec state_eq_dec s (get_states mdp)); [discriminate | contradiction].
Qed.


(** On a grid built by the constructor the loop raises nothing: every key
    it subscripts is a grid state, and there are four actions to take the
    maximum over. *)
Lemma vi_loop_no_raise (fuel : nat) (mdp : MDP) (gamma epsilon : Q)
    (us : Dict.t Q) (e : exn) :
  actions mdp <> [] ->
  has_keys us (get_states mdp) ->
  vi_loop fuel mdp gamma epsilon us <> Some (Raise e).
Proof.
  intros Hact. revert us.
  induction fuel as [| fuel IH]; intros us Hk; simpl; [discriminate |].
  pose proof (sweep_ok mdp gamma us Hk Hact) as Es. rewrite Es.
  destruct (Qltb _ epsilon); [discriminate |].
  apply IH. eapply has_keys_sweep; eassumption.
Qed.

Lemma value_iteration_locals (fuel : nat) (mdp : MDP) (gamma epsilon : Q)
    (U : Dict.t Q) :
  value_iteration fuel mdp gamma epsilon = Some (Ok U) ->
  exists l, vi_run fuel mdp gamma epsilon = Some (Ok l) /\ utility l = U.
Proof.
  unfold value_iteration.
  destruct (vi_run fuel mdp gamma epsilon) as [[l | e] |]; try discriminate.
  intros H. inversion H. eauto.
Qed.

(** ** What [value_iteration] returns *)

(** C1, as the code has it: [value_iteration] returns [utility], the snapshot
    that the last executed sweep read.  The values that sweep computed are in
    [utility_step] and are not returned.  The snapshot is the all-zero
    initial mapping when only one sweep ran, and otherwise the result of the
    sweep before the last one. *)
Theorem value_iteration_returns_snapshot (fuel : nat) (mdp : MDP)
    (gamma epsilon : Q) (U : Dict.t Q) :
  value_iteration fuel mdp gamma epsilon = Some (Ok U) ->
  exists us' d,
    vi_run fuel mdp gamma epsilon
    = Some (Ok {| utility := U; utility_step := us'; delta := d |})
    /\ sweep mdp gamma U = Ok (U, us', d)
    /\ d < epsilon
    /\ (U = Dict.from_keys (get_states mdp) 0
        \/ exists prev d',
             sweep mdp gamma prev = Ok (prev, U, d') /\ epsilon <= d').
Proof.
  intros H. apply value_iteration_locals in H as (l & Hrun & <-).
  exists (utility_step l), (delta l).
  split; [destruct l; exact Hrun |].
  apply vi_loop_exit in Hrun. exact Hrun.
Qed.

Lemma value_iteration_returns_snapshot_witness :
  value_iteration 3 mdp12 (9#10) 1
  = Some (Ok [((1, 1)%Z, 9000#1000); ((2, 1)%Z, 10000#1000)])
  /\ exists us' d,
       vi_run 3 mdp12 (9#10) 1
       = Some (Ok {| utility := [((1, 1)%Z, 9000#1000); ((2, 1)%Z, 10000#1000)];
                     utility_step := us'; delta := d |})
       /\ sweep mdp12 (9#10) [((1, 1)%Z, 9000#1000); ((2, 1)%Z, 10000#1000)]
          = Ok ([((1, 1)%Z, 9000#1000); ((2, 1)%Z, 10000#1000)], us', d)
       /\ d < 1
       /\ ([((1, 1)%Z, 9000#1000); ((2, 1)%Z, 10000#1000)]
           = Dict.from_keys (get_states mdp12) 0
           \/ exists prev d',
                sweep mdp12 (9#10) prev
                = Ok (prev, [((1, 1)%Z, 9000#1000); ((2, 1)%Z, 10000#1000)], d')
                /\ 1 <= d').
Proof.
  assert (H : value_iteration 3 mdp12 (9#10) 1
              = Some (Ok [((1, 1)%Z, 9000#1000); ((2, 1)%Z, 10000#1000)]))
    by (vm_compute; reflexivity).
  split; [exact H |].
  exact (value_iteration_returns_snapshot 3 mdp12 (9#10) 1 _ H).
Defined.

(** C1 as stated fails: with epsilon = 11 on the 1 x 2 grid the loop stops
    after its first sweep; that sweep computed 10 for the terminal state
    (2, 1), and the mapping returned holds 0 there. *)
Lemma returns_last_sweep_counterexample :
  vi_run 1 mdp12 (9#10) 11
  = Some (Ok {| utility := [((1, 1)%Z, 0); ((2, 1)%Z, 0)];
                utility_step := [((1, 1)%Z, 0#10); ((2, 1)%Z, 100#10)];
                delta := 100#10 |})
  /\ value_iteration 1 mdp12 (9#10) 11
     = Some (Ok [((1, 1)%Z, 0); ((2, 1)%Z, 0)])
  /\ ~ lookup [((1, 1)%Z, 0); ((2, 1)%Z, 0)] (2, 1)%Z
       == lookup [((1, 1)%Z, 0#10); ((2, 1)%Z, 100#10)] (2, 1)%Z.
Proof.
  split; [vm_compute; reflexivity |]. split; [vm_compute; reflexivity |].
  vm_compute. discriminate.
Qed.

(** ** One sweep is the synchronous Bellman backup *)



(** ** Terminal states *)

Lemma sumQ_zero {A} (f : A -> Q) (l : list A) :
  (forall x, In x l -> f x == 0) -> sumQ (map f l) == 0.
Proof.
  induction l as [| x l IH]; intros H; simpl; [reflexivity |].
  rewrite (H x (or_introl eq_refl)), IH; [lra |].
  intros y Hy. apply H. now right.
Qed.

(** Where no successor contributes, the backup is the reward. *)
Lemma spec_backup_no_contribution (mdp : MDP) (gamma : Q) (U : state -> Q)
    (s : state) :
  (forall a s', In s' (get_states mdp) -> get_transition_prob mdp s a s' * U s' == 0) ->
  spec_bellman_backup mdp gamma U s == get_reward mdp s.
Proof.
  intros H. unfold spec_bellman_backup.
  assert (E : forall a, spec_expected_utility mdp U s a == 0).
  { intros a. apply sumQ_zero. intros s' Hin. now apply H. }
  pose proof (E "up"%string) as Eu. pose proof (E "right"%string) as Er.
  pose proof (E "down"%string) as Ed. pose proof (E "left"%string) as El.
  set (u := spec_expected_utility mdp U s "up"%string) in *.
  set (r := spec_expected_utility mdp U s "right"%string) in *.
  set (d := spec_expected_utility mdp U s "down"%string) in *.
  set (l := spec_expected_utility mdp U s "left"%string) in *.
  assert (M : Qmax u (Qmax r (Qmax d l)) == 0).
  { destruct (Q.max_spec d l) as [[? ?] | [? ?]];
      destruct (Q.max_spec r (Qmax d l)) as [[? ?] | [? ?]];
      destruct (Q.max_spec u (Qmax r (Qmax d l))) as [[? ?] | [? ?]]; lra. }
  rewrite M. lra.
Qed.


Lemma lookup_from_keys (ks : list state) (s : state) :
  lookup (Dict.from_keys ks 0) s = 0.
Proof.
  unfold lookup, Dict.get. rewrite find_from_keys.
  destruct (in_dec state_eq_dec s ks); reflexivity.
Qed.

Lemma spec_backup_initial (mdp : MDP) (gamma : Q) (s : state) :
  spec_bellman_backup mdp gamma (lookup (Dict.from_keys (get_states mdp) 0)) s
  == get_reward mdp s.
Proof.
  apply spec_backup_no_contribution. intros a s' _.
  rewrite lookup_from_keys. lra.
Qed.




(** ** The 1 x 2 scenario *)

Lemma mdp12_initial : Dict.from_keys (get_states mdp12) 0 = U0.
Proof. reflexivity. Qed.

Lemma mdp12_sweep1 : sweep mdp12 (9#10) U0 = Ok (U0, U1, 100#10).
Proof. vm_compute. reflexivity. Qed.

Lemma mdp12_sweep2 : sweep mdp12 (9#10) U1 = Ok (U1, U2, 90000#10000).
Proof. vm_compute. reflexivity. Qed.

Lemma mdp12_sweep3 : sweep mdp12 (9#10) U2 = Ok (U2, U3, 0).
Proof. vm_compute. reflexivity. Qed.

(** C2 as stated fails: with epsilon = 10 the second sweep has delta 9 and
    ends the loop; the snapshot returned still holds 0 for (1, 1). *)
Lemma scenario_any_epsilon_counterexample :
  0 < 10
  /\ value_iteration 2 mdp12 (9#10) 10
     = Some (Ok [((1, 1)%Z, 0#10); ((2, 1)%Z, 100#10)])
  /\ Dict.find [((1, 1)%Z, 0#10); ((2, 1)%Z, 100#10)] (1, 1)%Z = Some (0#10)
  /\ ~ 0#10 == 9.
Proof.
  split; [reflexivity |]. split; [vm_compute; reflexivity |].
  split; [reflexivity | discriminate].
Qed.

(** C2, as the code has it: on the 1 x 2 grid with gamma = 0.9, for every
    epsilon with 0 < epsilon <= 9 the loop runs three sweeps and returns a
    mapping with U[(2,1)] = 10 and U[(1,1)] = 9. *)
Theorem scenario_small_epsilon (fuel : nat) (epsilon : Q) :
  0 < epsilon -> epsilon <= 9 -> (3 <= fuel)%nat ->
  exists U u11 u21,
    value_iteration fuel mdp12 (9#10) epsilon = Some (Ok U)
    /\ Dict.find U (1, 1)%Z = Some u11 /\ u11 == 9
    /\ Dict.find U (2, 1)%Z = Some u21 /\ u21 == 10.
Proof.
  intros Hpos Hle Hfuel.
  destruct fuel as [| [| [| fuel]]]; try lia.
  exists U2, (9000#1000), (10000#1000).
  split; [| repeat split].
  unfold value_iteration, vi_run. rewrite mdp12_initial.
  cbn [vi_loop]. rewrite mdp12_sweep1.
  assert (E1 : Qltb (100#10) epsilon = false)
    by (apply Qltb_false; eapply Qle_trans; [exact Hle | discriminate]).
  rewrite E1. rewrite mdp12_sweep2.
  assert (E2 : Qltb (90000#10000) epsilon = false)
    by (apply Qltb_false; eapply Qle_trans; [exact Hle | discriminate]).
  rewrite E2. rewrite mdp12_sweep3.
  assert (E3 : Qltb 0 epsilon = true) by (apply Qltb_true; exact Hpos).
  rewrite E3. reflexivity.
Qed.

Lemma scenario_small_epsilon_witness :
  0 < 1#100 /\ 1#100 <= 9 /\ (3 <= 5)%nat
  /\ exists U u11 u21,
       value_iteration 5 mdp12 (9#10) (1#100) = Some (Ok U)
       /\ Dict.find U (1, 1)%Z = Some u11 /\ u11 == 9
       /\ Dict.find U (2, 1)%Z = Some u21 /\ u21 == 10.
Proof.
  split; [reflexivity |]. split; [discriminate |]. split; [lia |].
  apply (scenario_small_epsilon 5 (1#100)); [reflexivity | discriminate | lia].
Defined.

(** * Further properties of the code *)

(** ** Keys of the utility mappings *)

Lemma in_keys_find {V} (d : Dict.t V) (k : state) :
  In k (Dict.keys d) <-> Dict.find d k <> None.
Proof.
  pose proof (find_none_keys d k) as H.
  destruct (Dict.find d k); split; intros G; try congruence.
  - destruct (in_dec state_eq_dec k (Dict.keys d)) as [Hin | Hnin]; [exact Hin |].
    apply H in Hnin. discriminate.
  - exfalso. apply (proj1 H eq_refl), G.
Qed.

Lemma keys_set_present {V} (d : Dict.t V) (k : state) (v : V) :
  In k (Dict.keys d) -> Dict.keys (Dict.set d k v) = Dict.keys d.
Proof.
  induction d as [| [k0 v0] d IH]; simpl; [contradiction |].
  intros Hin. destruct (state_eqb_spec k0 k) as [-> | Hne]; simpl; [reflexivity |].
  f_equal. apply IH. destruct Hin; [contradiction | assumption].
Qed.

Lemma keys_set_absent {V} (d : Dict.t V) (k : state) (v : V) :
  ~ In k (Dict.keys d) -> Dict.keys (Dict.set d k v) = Dict.keys d ++ [k].
Proof.
  induction d as [| [k0 v0] d IH]; simpl; [reflexivity |].
  intros Hnin. destruct (state_eqb_spec k0 k) as [-> | Hne]; simpl.
  - exfalso. apply Hnin. now left.
  - f_equal. apply IH. intros Hin. apply Hnin. now right.
Qed.

Lemma keys_from_keys {V} (ks : list state) (v : V) :
  NoDup ks -> Dict.keys (Dict.from_keys ks v) = ks.
Proof.
  unfold Dict.from_keys.
  assert (G : forall (d : Dict.t V),
             NoDup (Dict.keys d ++ ks) ->
             Dict.keys (fold_left (fun d k => Dict.set d k v) ks d)
             = Dict.keys d ++ ks).
  { induction ks as [| k ks IH]; intros d Hnd; simpl.
    - now rewrite app_nil_r.
    - assert (Hnin : ~ In k (Dict.keys d)).
      { intros Hin. apply NoDup_remove_2 in Hnd. apply Hnd, in_or_app. now left. }
      rewrite IH; rewrite keys_set_absent by exact Hnin.
      + now rewrite <- app_assoc.
      + rewrite <- app_assoc. exact Hnd. }
  intros Hnd. apply (G []). exact Hnd.
Qed.

Lemma keys_fold_set {V} (f : state -> V) (l : list state) (us : Dict.t V) :
  (forall s, In s l -> In s (Dict.keys us)) ->
  Dict.keys (fold_left (fun d s => Dict.set d s (f s)) l us) = Dict.keys us.
Proof.
  revert us. induction l as [| s l IH]; intros us Hin; simpl; [reflexivity |].
  rewrite IH.
  - apply keys_set_present, Hin. now left.
  - intros k Hk. rewrite keys_set_present by (apply Hin; now left).
    apply Hin. now right.
Qed.

Lemma keys_sweep (mdp : MDP) (gamma : Q) (u u' us' : Dict.t Q) (d : Q) :
  actions mdp <> [] ->
  has_keys u (get_states mdp) ->
  sweep mdp gamma u = Ok (u', us', d) ->
  Dict.keys us' = Dict.keys u.
Proof.
  intros Hact Hk Hs. rewrite (sweep_ok mdp gamma u Hk Hact) in Hs.
  inversion Hs; subst. apply keys_fold_set.
  intros s Hin. apply in_keys_find, Hk, Hin.
Qed.

Lemma vi_loop_keys_eq (fuel : nat) (mdp : MDP) (gamma epsilon : Q)
    (us : Dict.t Q) (l : vi_locals) :
  actions mdp <> [] ->
  has_keys us (get_states mdp) ->
  vi_loop fuel mdp gamma epsilon us = Some (Ok l) ->
  Dict.keys (utility l) = Dict.keys us.
Proof.
  intros Hact. revert us.
  induction fuel as [| fuel IH]; intros us Hk; simpl; [discriminate |].
  destruct (sweep mdp gamma us) as [[[u us'] d] | e] eqn:Es; [| discriminate].
  pose proof (sweep_snapshot _ _ _ _ _ _ Es) as ->.
  destruct (Qltb d epsilon).
  - intros H. inversion H; subst. reflexivity.
  - intros H. rewrite (IH us' (has_keys_sweep _ _ _ _ _ _ Hact Hk Es) H).
    eapply keys_sweep; eassumption.
Qed.

(** X1: whatever the grid, gamma and epsilon, the mapping returned by
    [value_iteration] has exactly the grid states as keys, each once, in the
    order of [get_states]. *)
Theorem returned_keys_are_states num_rows num_cols rw tm pf ps rd
    (fuel : nat) (gamma epsilon : Q) (U : Dict.t Q) :
  let mdp := MDP_init num_rows num_cols rw tm pf ps rd in
  value_iteration fuel mdp gamma epsilon = Some (Ok U) ->
  Dict.keys U = get_states mdp.
Proof.
  intros mdp H.
  assert (Hact : actions mdp <> []) by discriminate.
  apply value_iteration_locals in H as (l & Hrun & <-).
  rewrite (vi_loop_keys_eq _ _ _ _ _ _ Hact
             (has_keys_from_keys (get_states mdp)) Hrun).
  apply keys_from_keys, NoDup_build_states.
Qed.

Lemma returned_keys_are_states_witness :
  value_iteration 3 mdp12 (9#10) 1 = Some (Ok U2)
  /\ Dict.keys U2 = get_states mdp12.
Proof.
  assert (H : value_iteration 3 mdp12 (9#10) 1 = Some (Ok U2))
    by (vm_compute; reflexivity).
  split; [exact H |].
  exact (returned_keys_are_states 1 2 [((2, 1)%Z, 10)] [(2, 1)%Z] 1 0 0
           3 (9#10) 1 U2 H).
Defined.

(** ** The convergence test *)

Lemma fold_delta_nonneg (mdp : MDP) (gamma : Q) (utility : Dict.t Q)
    (l : list state) :
  0 <= fold_left (delta_step mdp gamma utility) l 0.
Proof. apply fold_delta_ge. Qed.

Lemma fold_delta_lt (mdp : MDP) (gamma : Q) (utility : Dict.t Q)
    (l : list state) (delta bound : Q) :
  delta < bound ->
  (forall s, In s l ->
     Qabs (backup_code mdp gamma utility s - lookup utility s) < bound) ->
  fold_left (delta_step mdp gamma utility) l delta < bound.
Proof.
  revert delta. induction l as [| s l IH]; intros delta Hd Hall; cbn [fold_left].
  - exact Hd.
  - apply IH.
    + unfold delta_step. destruct (Qltb delta _); [apply Hall; now left | exact Hd].
    + intros k Hk. apply Hall. now right.
Qed.

Lemma fold_delta_le (mdp : MDP) (gamma : Q) (utility : Dict.t Q)
    (l : list state) (delta bound : Q) :
  delta <= bound ->
  (forall s, In s l ->
     Qabs (backup_code mdp gamma utility s - lookup utility s) <= bound) ->
  fold_left (delta_step mdp gamma utility) l delta <= bound.
Proof.
  revert delta. induction l as [| s l IH]; intros delta Hd Hall; cbn [fold_left].
  - exact Hd.
  - apply IH.
    + unfold delta_step. destruct (Qltb delta _); [apply Hall; now left | exact Hd].
    + intros k Hk. apply Hall. now right.
Qed.


Lemma lookup_fold_set (mdp : MDP) (gamma : Q) (utility us : Dict.t Q)
    (l : list state) (s : state) :
  In s l ->
  lookup (fold_left (fun d s => Dict.set d s (backup_code mdp gamma utility s)) l us) s
  = backup_code mdp gamma utility s.
Proof.
  intros Hin. unfold lookup, Dict.get. rewrite find_fold_set.
  destruct (in_dec state_eq_dec s l); [reflexivity | contradiction].
Qed.



(** X4: with [epsilon <= 0] the test [delta < epsilon] never succeeds,
    because [delta] is never negative: the loop does not end, whatever the
    fuel. *)
Theorem nonpositive_epsilon_never_returns num_rows num_cols rw tm pf ps rd
    (fuel : nat) (gamma epsilon : Q) :
  epsilon <= 0 ->
  value_iteration fuel (MDP_init num_rows num_cols rw tm pf ps rd) gamma epsilon
  = None.
Proof.
  intros Heps. set (mdp := MDP_init num_rows num_cols rw tm pf ps rd).
  assert (Hact : actions mdp <> []) by discriminate.
  assert (G : forall us, has_keys us (get_states mdp) ->
                         vi_loop fuel mdp gamma epsilon us = None).
  { induction fuel as [| fuel IH]; intros us Hk; simpl; [reflexivity |].
    pose proof (sweep_ok mdp gamma us Hk Hact) as Es. rewrite Es.
    assert (E : Qltb (fold_left (delta_step mdp gamma us) (get_states mdp) 0)
                  epsilon = false).
    { apply Qltb_false. eapply Qle_trans; [exact Heps |].
      apply fold_delta_nonneg. }
    rewrite E. apply IH. eapply has_keys_sweep; eassumption. }
  unfold value_iteration, vi_run. now rewrite G by apply has_keys_from_keys.
Qed.

Lemma nonpositive_epsilon_never_returns_witness :
  0 <= 0 /\ value_iteration 50 gridworld (9#10) 0 = None.
Proof.
  split; [discriminate |].
  apply (nonpositive_epsilon_never_returns 3 2 [((1, 3)%Z, -2); ((2, 3)%Z, 2)]
           [(1, 3)%Z; (2, 3)%Z] (8#10) (1#10) 0 50 (9#10) 0).
  discriminate.
Defined.

(** ** Stopping after the first sweep *)

Lemma backup_initial_is_reward num_rows num_cols rw tm pf ps rd (gamma : Q)
    (s : state) :
  let mdp := MDP_init num_rows num_cols rw tm pf ps rd in
  Qabs (backup_code mdp gamma (Dict.from_keys (get_states mdp) 0) s
        - lookup (Dict.from_keys (get_states mdp) 0) s)
  == Qabs (get_reward mdp s).
Proof.
  intros mdp. apply Qabs_wd. unfold mdp.
  rewrite backup_code_spec, spec_backup_initial, lookup_from_keys. lra.
Qed.

Lemma first_sweep_exit num_rows num_cols rw tm pf ps rd
    (fuel : nat) (gamma epsilon : Q) :
  let mdp := MDP_init num_rows num_cols rw tm pf ps rd in
  0 < epsilon ->
  (forall s, In s (get_states mdp) -> Qabs (get_reward mdp s) < epsilon) ->
  value_iteration (S fuel) mdp gamma epsilon
  = Some (Ok (Dict.from_keys (get_states mdp) 0)).
Proof.
  intros mdp Hpos Hsmall.
  assert (Hact : actions mdp <> []) by discriminate.
  unfold value_iteration, vi_run. cbn [vi_loop].
  rewrite (sweep_ok mdp gamma _ (has_keys_from_keys (get_states mdp)) Hact).
  assert (E : Qltb (fold_left
                      (delta_step mdp gamma (Dict.from_keys (get_states mdp) 0))
                      (get_states mdp) 0) epsilon = true).
  { apply Qltb_true, fold_delta_lt; [exact Hpos |].
    intros s Hin. unfold mdp. rewrite backup_initial_is_reward.
    now apply Hsmall. }
  rewrite E. reflexivity.
Qed.

(** X5: when [epsilon] is positive and every grid state's reward is below
    [epsilon] in absolute value, the first sweep already passes the test and
    the all-zero initial mapping is returned, not the rewards. *)
Theorem small_rewards_return_zeros num_rows num_cols rw tm pf ps rd
    (fuel : nat) (gamma epsilon : Q) :
  let mdp := MDP_init num_rows num_cols rw tm pf ps rd in
  0 < epsilon ->
  (forall s, In s (get_states mdp) -> Qabs (get_reward mdp s) < epsilon) ->
  value_iteration (S fuel) mdp gamma epsilon
  = Some (Ok (Dict.from_keys (get_states mdp) 0))
  /\ forall s, lookup (Dict.from_keys (get_states mdp) 0) s = 0.
Proof.
  intros mdp Hpos Hsmall. split.
  - now apply first_sweep_exit.
  - intros s. apply lookup_from_keys.
Qed.

Lemma small_rewards_return_zeros_witness :
  0 < 3
  /\ (forall s, In s (get_states gridworld) -> Qabs (get_reward gridworld s) < 3)
  /\ value_iteration 1 gridworld (9#10) 3
     = Some (Ok (Dict.from_keys (get_states gridworld) 0)).
Proof.
  assert (Hsmall : forall s, In s (get_states gridworld) ->
                             Qabs (get_reward gridworld s) < 3).
  { intros s Hin. vm_compute in Hin.
    repeat (destruct Hin as [<- | Hin]; [reflexivity |]). destruct Hin. }
  split; [reflexivity |]. split; [exact Hsmall |].
  apply (small_rewards_return_zeros 3 2 [((1, 3)%Z, -2); ((2, 3)%Z, 2)]
           [(1, 3)%Z; (2, 3)%Z] (8#10) (1#10) 0 0 (9#10) 3);
    [reflexivity | exact Hsmall].
Defined.

(** ** Grids without states *)

Lemma range_nonpositive (n : Z) : (n <= 0)%Z -> range n = [].
Proof. intros H. unfold range. now replace (Z.to_nat n) with 0%nat by lia. Qed.

Lemma build_states_empty (num_rows num_cols : Z) :
  build_states num_rows num_cols = [] <-> (num_rows <= 0 \/ num_cols <= 0)%Z.
Proof.
  rewrite build_states_flat_map. split.
  - intros E.
    destruct (Z_le_gt_dec num_rows 0) as [Hr | Hr]; [now left |].
    destruct (Z_le_gt_dec num_cols 0) as [Hc | Hc]; [now right |].
    exfalso. assert (Hin : In (1, 1)%Z (build_states num_rows num_cols))
      by (apply in_build_states; lia).
    rewrite build_states_flat_map, E in Hin. exact Hin.
  - intros [Hr | Hc].
    + rewrite (range_nonpositive num_rows Hr). simpl.
      induction (range num_cols); [reflexivity | assumption].
    + now rewrite (range_nonpositive num_cols Hc).
Qed.

(** X6: the constructor accepts non-positive dimensions without an error:
    the grid then has no state at all (and only then), and [value_iteration]
    with a positive [epsilon] returns the empty mapping after one sweep. *)
Theorem nonpositive_dimensions_empty_grid num_rows num_cols rw tm pf ps rd
    (fuel : nat) (gamma epsilon : Q) :
  let mdp := MDP_init num_rows num_cols rw tm pf ps rd in
  (get_states mdp = [] <-> (num_rows <= 0 \/ num_cols <= 0)%Z)
  /\ ((num_rows <= 0 \/ num_cols <= 0)%Z -> 0 < epsilon ->
      value_iteration (S fuel) mdp gamma epsilon = Some (Ok [])).
Proof.
  intros mdp. split; [apply build_states_empty |].
  intros Hdim Hpos.
  assert (E : get_states mdp = []) by (apply build_states_empty, Hdim).
  unfold mdp. rewrite first_sweep_exit; [| exact Hpos |].
  - fold mdp. now rewrite E.
  - fold mdp. rewrite E. intros s [].
Qed.

Lemma nonpositive_dimensions_empty_grid_witness :
  (0 <= 0 \/ 2 <= 0)%Z /\ 0 < 1#100
  /\ value_iteration 1 (MDP_init 0 2 [] [] (8#10) (1#10) 0) (9#10) (1#100)
     = Some (Ok []).
Proof.
  assert (Hdim : (0 <= 0 \/ 2 <= 0)%Z) by (left; lia).
  split; [exact Hdim |]. split; [reflexivity |].
  destruct (nonpositive_dimensions_empty_grid 0 2 [] [] (8#10) (1#10) 0
              0 (9#10) (1#100)) as [_ H].
  apply H; [exact Hdim | reflexivity].
Defined.

(** ** The transition kernel, action by action *)

(** X7: an action that is none of the four strings falls through the
    [if]/[elif] chain: every successor gets probability 0, with no error. *)
Theorem unknown_action_zero (mdp : MDP) (s : state) (a : action) (s' : state) :
  a <> "up"%string -> a <> "right"%string ->
  a <> "down"%string -> a <> "left"%string ->
  get_transition_prob mdp s a s' = 0.
Proof.
  intros Hu Hr Hd Hl. unfold get_transition_prob, succ__prob.
  apply String.eqb_neq in Hu, Hr, Hd, Hl. rewrite Hu, Hr, Hd, Hl.
  destruct (is_terminal mdp s); reflexivity.
Qed.

Lemma unknown_action_zero_witness :
  get_transition_prob mdp12 (1, 1)%Z "north"%string (2, 1)%Z = 0.
Proof.
  apply (unknown_action_zero mdp12 (1, 1)%Z "north"%string (2, 1)%Z);
    discriminate.
Defined.

(** X8: out of a non-terminal state the probability of a successor is
    [prob_forw] if it is the clamped neighbour in the intended direction,
    plus [prob_side] for each of the two perpendicular clamped neighbours it
    equals; the neighbour in the opposite direction gets nothing of its
    own. *)
Theorem transition_prob_by_action (mdp : MDP) (s s' : state) :
  is_terminal mdp s = false ->
  get_transition_prob mdp s "up"%string s'
  == mass (succ_up mdp s) s' (prob_forw mdp)
     + mass (succ_right mdp s) s' (prob_side mdp)
     + mass (succ_left mdp s) s' (prob_side mdp)
  /\ get_transition_prob mdp s "right"%string s'
     == mass (succ_right mdp s) s' (prob_forw mdp)
        + mass (succ_up mdp s) s' (prob_side mdp)
        + mass (succ_down mdp s) s' (prob_side mdp)
  /\ get_transition_prob mdp s "down"%string s'
     == mass (succ_down mdp s) s' (prob_forw mdp)
        + mass (succ_right mdp s) s' (prob_side mdp)
        + mass (succ_left mdp s) s' (prob_side mdp)
  /\ get_transition_prob mdp s "left"%string s'
     == mass (succ_left mdp s) s' (prob_forw mdp)
        + mass (succ_up mdp s) s' (prob_side mdp)
        + mass (succ_down mdp s) s' (prob_side mdp).
Proof.
  intros Hnt. repeat split.
  - apply (get_transition_prob_mass mdp s "up"%string s' Hnt).
  - apply (get_transition_prob_mass mdp s "right"%string s' Hnt).
  - apply (get_transition_prob_mass mdp s "down"%string s' Hnt).
  - apply (get_transition_prob_mass mdp s "left"%string s' Hnt).
Qed.

Lemma transition_prob_by_action_witness :
  is_terminal gridworld (1, 1)%Z = false
  /\ get_transition_prob gridworld (1, 1)%Z "left"%string (1, 1)%Z == 9#10
  /\ get_transition_prob gridworld (1, 1)%Z "left"%string (1, 1)%Z
     == mass (succ_left gridworld (1, 1)%Z) (1, 1)%Z (prob_forw gridworld)
        + mass (succ_up gridworld (1, 1)%Z) (1, 1)%Z (prob_side gridworld)
        + mass (succ_down gridworld (1, 1)%Z) (1, 1)%Z (prob_side gridworld).
Proof.
  split; [reflexivity |]. split; [reflexivity |].
  apply (transition_prob_by_action gridworld (1, 1)%Z (1, 1)%Z). reflexivity.
Defined.

Lemma mass_bounds (k k' : state) (p : Q) : 0 <= p -> 0 <= mass k k' p <= p.
Proof. intros Hp. unfold mass. destruct (state_eqb k k'); lra. Qed.

Lemma transition_prob_bounds (mdp : MDP) (s : state) (a : action) (s' : state) :
  0 <= prob_forw mdp -> 0 <= prob_side mdp ->
  0 <= get_transition_prob mdp s a s'
  /\ get_transition_prob mdp s a s' <= prob_forw mdp + 2 * prob_side mdp.
Proof.
  intros Hf Hs. destruct (is_terminal mdp s) eqn:Ht.
  - rewrite (transition_prob_of_terminal mdp s a s' Ht). lra.
  - rewrite (get_transition_prob_mass mdp s a s' Ht).
    destruct (outcomes mdp s a) as [[[f s1] s2] |]; [| lra].
    pose proof (mass_bounds f s' _ Hf). pose proof (mass_bounds s1 s' _ Hs).
    pose proof (mass_bounds s2 s' _ Hs). lra.
Qed.

(** ** get_transition_probs *)

Lemma expected_utility_missing_key (mdp : MDP) (s : state) (utility : Dict.t Q)
    (a : action) (s' : state) :
  In s' (get_states mdp) -> Dict.find utility s' = None ->
  expected_utility mdp s utility a = Raise KeyError.
Proof.
  unfold expected_utility. generalize 0 as acc.
  generalize (get_states mdp) as l.
  induction l as [| k l IH]; intros acc Hin Hnone; [contradiction |].
  cbn [for_each]. unfold Dict.subscript at 1.
  destruct (Dict.find utility k) as [v |] eqn:Ek; cbn [bind].
  - apply IH; [| exact Hnone]. destruct Hin as [-> | Hin]; [congruence | exact Hin].
  - reflexivity.
Qed.

(** X10: [get_transition_probs] subscripts the utility mapping at every grid
    state, for every state it is asked about (terminal or not, in the grid or
    not): if the mapping lacks one grid state the call raises [KeyError]. *)
Theorem get_transition_probs_missing_key num_rows num_cols rw tm pf ps rd
    (s : state) (utility : Dict.t Q) (s' : state) :
  let mdp := MDP_init num_rows num_cols rw tm pf ps rd in
  In s' (get_states mdp) -> Dict.find utility s' = None ->
  get_transition_probs mdp s utility = Raise KeyError.
Proof.
  intros mdp Hin Hnone. unfold get_transition_probs, get_actions.
  cbn [actions mdp MDP_init for_each].
  now rewrite (expected_utility_missing_key mdp s utility "up"%string s' Hin Hnone).
Qed.

Lemma get_transition_probs_missing_key_witness :
  In (2, 1)%Z (get_states mdp12)
  /\ Dict.find [((1, 1)%Z, 5)] (2, 1)%Z = None
  /\ get_transition_probs mdp12 (1, 1)%Z [((1, 1)%Z, 5)] = Raise KeyError.
Proof.
  assert (Hin : In (2, 1)%Z (get_states mdp12)) by (vm_compute; auto).
  split; [exact Hin |]. split; [reflexivity |].
  exact (get_transition_probs_missing_key 1 2 [((2, 1)%Z, 10)] [(2, 1)%Z] 1 0 0
           (1, 1)%Z [((1, 1)%Z, 5)] (2, 1)%Z Hin eq_refl).
Defined.



(** ** ascii_grid *)

Lemma ascii_grid_ok (fmt : Q -> string) (vals : Dict.t Q) :
  has_keys vals ascii_cells -> exists out, ascii_grid fmt vals = Ok out.
Proof.
  intros Hk. unfold ascii_grid.
  rewrite !subscript_lookup by (apply Hk; simpl; tauto).
  cbn [bind]. eexists. reflexivity.
Qed.

Lemma ascii_grid_key_error (fmt : Q -> string) (vals : Dict.t Q) (c : state) :
  In c ascii_cells -> Dict.find vals c = None ->
  ascii_grid fmt vals = Raise KeyError.
Proof.
  intros Hin Hnone. unfold ascii_grid, Dict.subscript.
  destruct (Dict.find vals (1, 3)%Z) eqn:E13; [| reflexivity].
  destruct (Dict.find vals (2, 3)%Z) eqn:E23; [| reflexivity].
  destruct (Dict.find vals (1, 2)%Z) eqn:E12; [| reflexivity].
  destruct (Dict.find vals (2, 2)%Z) eqn:E22; [| reflexivity].
  destruct (Dict.find vals (1, 1)%Z) eqn:E11; [| reflexivity].
  destruct (Dict.find vals (2, 1)%Z) eqn:E21; [| reflexivity].
  exfalso. simpl in Hin.
  repeat (destruct Hin as [<- | Hin]; [congruence |]). exact Hin.
Qed.

(** X12: [ascii_grid] reads exactly the six cells of a 3 x 2 layout.  Given
    what [value_iteration] returned, it produces its text when the grid has
    at least three rows and two columns, and raises [KeyError] when the grid
    has fewer rows or fewer columns. *)
Theorem ascii_grid_of_value_iteration num_rows num_cols rw tm pf ps rd
    (fuel : nat) (gamma epsilon : Q) (U : Dict.t Q) (fmt : Q -> string) :
  let mdp := MDP_init num_rows num_cols rw tm pf ps rd in
  value_iteration fuel mdp gamma epsilon = Some (Ok U) ->
  ((3 <= num_rows /\ 2 <= num_cols)%Z -> exists out, ascii_grid fmt U = Ok out)
  /\ ((num_rows < 3 \/ num_cols < 2)%Z -> ascii_grid fmt U = Raise KeyError).
Proof.
  intros mdp H.
  assert (Hkeys : Dict.keys U = get_states mdp).
  { assert (Hact : actions mdp <> []) by discriminate.
    apply value_iteration_locals in H as (l & Hrun & <-).
    rewrite (vi_loop_keys_eq _ _ _ _ _ _ Hact
               (has_keys_from_keys (get_states mdp)) Hrun).
    apply keys_from_keys, NoDup_build_states. }
  split.
  - intros [Hr Hc]. apply ascii_grid_ok. intros c Hin.
    apply in_keys_find. rewrite Hkeys. destruct c as [x y].
    apply in_build_states. simpl in Hin.
    repeat (destruct Hin as [Hin | Hin]; [inversion Hin; subst; lia |]).
    destruct Hin.
  - intros Hsmall.
    assert (Hc : exists c, In c ascii_cells /\ ~ In c (get_states mdp)).
    { destruct Hsmall as [Hr | Hc].
      - exists (1, 3)%Z. split; [simpl; tauto |].
        intros Hin. apply in_build_states in Hin. lia.
      - exists (2, 1)%Z. split; [simpl; tauto |].
        intros Hin. apply in_build_states in Hin. lia. }
    destruct Hc as (c & Hin & Hnin).
    apply (ascii_grid_key_error fmt U c Hin).
    apply find_none_keys. now rewrite Hkeys.
Qed.

Lemma ascii_grid_of_value_iteration_witness :
  value_iteration 3 mdp12 (9#10) 1 = Some (Ok U2)
  /\ (1 < 3 \/ 2 < 2)%Z
  /\ ascii_grid (fun _ => EmptyString) U2 = Raise KeyError.
Proof.
  assert (H : value_iteration 3 mdp12 (9#10) 1 = Some (Ok U2))
    by (vm_compute; reflexivity).
  assert (Hsmall : (1 < 3 \/ 2 < 2)%Z) by (left; lia).
  split; [exact H |]. split; [exact Hsmall |].
  destruct (ascii_grid_of_value_iteration 1 2 [((2, 1)%Z, 10)] [(2, 1)%Z] 1 0 0
              3 (9#10) 1 U2 (fun _ => EmptyString) H) as [_ G].
  apply G, Hsmall.
Defined.

(** ** Contraction of [delta] over the rationals *)

Lemma sumQ_weighted_diff {A} (P x y : A -> Q) (D : Q) (l : list A) :
  (forall i, In i l -> 0 <= P i) ->
  (forall i, In i l -> Qabs (x i - y i) <= D) ->
  Qabs (sumQ (map (fun i => P i * x i) l) - sumQ (map (fun i => P i * y i) l))
  <= D * sumQ (map P l).
Proof.
  intros HP HD. apply Qabs_Qle_condition.
  induction l as [| i l IH]; simpl; [lra |].
  assert (Hi : 0 <= P i) by (apply HP; now left).
  assert (Hd : - D <= x i - y i <= D)
    by (apply Qabs_Qle_condition, HD; now left).
  destruct IH as [IH1 IH2].
  { intros k Hk. apply HP. now right. }
  { intros k Hk. apply HD. now right. }
  split; nra.
Qed.

Lemma sum_transition_prob_le num_rows num_cols rw tm pf ps rd
    (s : state) (a : action) :
  let mdp := MDP_init num_rows num_cols rw tm pf ps rd in
  0 <= pf -> 0 <= ps -> In s (get_states mdp) ->
  sumQ (map (get_transition_prob mdp s a) (get_states mdp)) <= pf + 2 * ps.
Proof.
  intros mdp Hf Hs Hin. destruct (is_terminal mdp s) eqn:Ht.
  - rewrite sumQ_zero; [lra |]. intros k _.
    apply (transition_prob_of_terminal mdp s a k Ht).
  - rewrite (sumQ_map_ext _ _ _
               (fun s' _ => get_transition_prob_mass mdp s a s' Ht)).
    destruct (outcomes mdp s a) as [[[f s1] s2] |] eqn:Eo.
    + apply in_grid_states in Hin.
      destruct (outcomes_in_grid mdp s a f s1 s2 Hin Eo) as (Hg & H1 & H2).
      apply in_grid_states in Hg, H1, H2.
      pose proof (NoDup_build_states num_rows num_cols) as Hnd.
      rewrite !sumQ_map_plus. rewrite !sumQ_mass_present by assumption.
      simpl. lra.
    + rewrite sumQ_zero; [lra | reflexivity].
Qed.

Lemma max_step_diff (m v m' v' D : Q) :
  Qabs (m - m') <= D -> Qabs (v - v') <= D ->
  Qabs (max_step m v - max_step m' v') <= D.
Proof.
  intros Hm Hv. apply Qabs_Qle_condition in Hm, Hv. apply Qabs_Qle_condition.
  unfold max_step.
  destruct (Qltb m v) eqn:E1; destruct (Qltb m' v') eqn:E2;
    repeat match goal with
           | E : Qltb _ _ = true |- _ => apply Qltb_true in E
           | E : Qltb _ _ = false |- _ => apply Qltb_false in E
           end; lra.
Qed.

Lemma max_list_diff {A} (f g : A -> Q) (D : Q) (l : list A) :
  0 <= D ->
  (forall a, In a l -> Qabs (f a - g a) <= D) ->
  Qabs (max_list (map f l) - max_list (map g l)) <= D.
Proof.
  intros HD Hall. destruct l as [| a l]; cbn [map max_list].
  - apply Qabs_Qle_condition. lra.
  - assert (G : forall m m', Qabs (m - m') <= D ->
                (forall b, In b l -> Qabs (f b - g b) <= D) ->
                Qabs (fold_left max_step (map f l) m
                      - fold_left max_step (map g l) m') <= D).
    { clear Hall. induction l as [| b l IH]; intros m m' Hm Hl;
        cbn [map fold_left]; [exact Hm |].
      apply IH.
      - apply max_step_diff; [exact Hm | apply Hl; now left].
      - intros c Hc. apply Hl. now right. }
    apply G; [apply Hall; now left |].
    intros b Hb. apply Hall. now right.
Qed.

Section Contraction.

Variables (num_rows num_cols : Z) (rw : Dict.t Q) (tm : list state).
Variables (pf ps rd gamma : Q).
Hypothesis Hpf : 0 <= pf.
Hypothesis Hps : 0 <= ps.
Hypothesis Hsum : pf + 2 * ps <= 1.
Hypothesis Hgamma : 0 <= gamma.

Let mdp := MDP_init num_rows num_cols rw tm pf ps rd.

Lemma expect_code_diff (U V : Dict.t Q) (D : Q) (s : state) (a : action) :
  0 <= D -> In s (get_states mdp) ->
  (forall s', In s' (get_states mdp) -> Qabs (lookup V s' - lookup U s') <= D) ->
  Qabs (expect_code mdp V s a - expect_code mdp U s a) <= D.
Proof.
  intros HD Hin Hall.
  assert (E : expect_code mdp V s a - expect_code mdp U s a
              == sumQ (map (fun s' => get_transition_prob mdp s a s' * lookup V s')
                         (get_states mdp))
                 - sumQ (map (fun s' => get_transition_prob mdp s a s' * lookup U s')
                           (get_states mdp))).
  { rewrite !expect_code_spec. reflexivity. }
  rewrite E.
  eapply Qle_trans.
  - apply (sumQ_weighted_diff (get_transition_prob mdp s a) (lookup V) (lookup U) D).
    + intros k _. apply transition_prob_bounds; assumption.
    + exact Hall.
  - pose proof (sum_transition_prob_le num_rows num_cols rw tm pf ps rd s a
                  Hpf Hps Hin) as Hle.
    fold mdp in Hle. nra.
Qed.

Lemma backup_code_diff (U V : Dict.t Q) (D : Q) (s : state) :
  0 <= D -> In s (get_states mdp) ->
  (forall s', In s' (get_states mdp) -> Qabs (lookup V s' - lookup U s') <= D) ->
  Qabs (backup_code mdp gamma V s - backup_code mdp gamma U s) <= gamma * D.
Proof.
  intros HD Hin Hall. unfold backup_code.
  pose proof (max_list_diff (expect_code mdp V s) (expect_code mdp U s) D
                (actions mdp) HD
                (fun a _ => expect_code_diff U V D s a HD Hin Hall)) as Hm.
  apply Qabs_Qle_condition in Hm. apply Qabs_Qle_condition.
  split; nra.
Qed.

(** One more sweep shrinks [delta] by the factor [gamma]. *)
Lemma delta_contracts (U : Dict.t Q) :
  fold_left
    (delta_step mdp gamma
       (fold_left (fun d s => Dict.set d s (backup_code mdp gamma U s))
          (get_states mdp) U))
    (get_states mdp) 0
  <= gamma * fold_left (delta_step mdp gamma U) (get_states mdp) 0.
Proof.
  set (V := fold_left (fun d s => Dict.set d s (backup_code mdp gamma U s))
              (get_states mdp) U).
  set (D := fold_left (delta_step mdp gamma U) (get_states mdp) 0).
  destruct (fold_delta_ge mdp gamma U (get_states mdp) 0) as [HD Hall].
  fold D in HD, Hall.
  assert (Hstep : forall s', In s' (get_states mdp) ->
                             Qabs (lookup V s' - lookup U s') <= D).
  { intros s' Hin. unfold V. rewrite lookup_fold_set by exact Hin.
    now apply Hall. }
  apply fold_delta_le; [nra |].
  intros s Hin.
  replace (lookup V s) with (backup_code mdp gamma U s)
    by (unfold V; now rewrite lookup_fold_set).
  now apply backup_code_diff.
Qed.

Lemma vi_loop_returns_within (n : nat) (epsilon : Q) (U : Dict.t Q) :
  has_keys U (get_states mdp) ->
  fold_left (delta_step mdp gamma U) (get_states mdp) 0 * Qpow_nat gamma n
  < epsilon ->
  exists l, vi_loop (S n) mdp gamma epsilon U = Some (Ok l).
Proof.
  assert (Hact : actions mdp <> []) by discriminate.
  revert U. induction n as [| n IH]; intros U Hk Hlt.
  - cbn [vi_loop]. rewrite (sweep_ok mdp gamma U Hk Hact).
    assert (E : Qltb (fold_left (delta_step mdp gamma U) (get_states mdp) 0)
                  epsilon = true).
    { apply Qltb_true. cbn [Qpow_nat] in Hlt. lra. }
    rewrite E. eauto.
  - cbn [vi_loop]. rewrite (sweep_ok mdp gamma U Hk Hact).
    destruct (Qltb _ epsilon) eqn:E; [eauto |].
    apply IH.
    + eapply has_keys_sweep; [exact Hact | exact Hk |].
      apply (sweep_ok mdp gamma U Hk Hact).
    + eapply Qle_lt_trans; [| exact Hlt].
      pose proof (delta_contracts U) as Hc.
      assert (Hp : 0 <= Qpow_nat gamma n).
      { clear - Hgamma. induction n as [| n IHn]; simpl; [lra | nra]. }
      cbn [Qpow_nat].
      set (D' := fold_left _ (get_states mdp) 0) in *.
      set (D := fold_left (delta_step mdp gamma U) (get_states mdp) 0) in *.
      nra.
Qed.

End Contraction.

Lemma Qpow_nat_nonneg (q : Q) (n : nat) : 0 <= q -> 0 <= Qpow_nat q n.
Proof. intros Hq. induction n as [| n IH]; simpl; [lra | nra]. Qed.

Lemma inject_nat_succ (n : nat) :
  inject_Z (Z.of_nat (S n)) == inject_Z (Z.of_nat n) + 1.
Proof. rewrite Nat2Z.inj_succ, <- Z.add_1_r, inject_Z_plus. reflexivity. Qed.

Lemma inject_nat_nonneg (n : nat) : 0 <= inject_Z (Z.of_nat n).
Proof.
  change 0 with (inject_Z 0). rewrite <- Zle_Qle. apply Nat2Z.is_nonneg.
Qed.

Lemma Qpow_nat_bernoulli (q : Q) (n : nat) :
  0 <= q -> q <= 1 ->
  Qpow_nat q n * (1 + inject_Z (Z.of_nat n) * (1 - q)) <= 1.
Proof.
  intros H0 H1. induction n as [| n IH].
  - cbn [Qpow_nat].
    assert (E : inject_Z (Z.of_nat 0) == 0) by reflexivity.
    rewrite E. lra.
  - cbn [Qpow_nat]. rewrite inject_nat_succ.
    pose proof (Qpow_nat_nonneg q n H0) as Hp.
    pose proof (inject_nat_nonneg n) as Hn.
    set (p := Qpow_nat q n) in *. set (N := inject_Z (Z.of_nat n)) in *.
    assert (Hr : 0 <= (N + 1) * ((1 - q) * (1 - q))).
    { apply Qmult_le_0_compat; [lra |]. apply Qmult_le_0_compat; lra. }
    assert (Hpr : 0 <= p * ((N + 1) * ((1 - q) * (1 - q))))
      by (apply Qmult_le_0_compat; assumption).
    assert (E : q * p * (1 + (N + 1) * (1 - q))
                == p * (1 + N * (1 - q)) - p * ((N + 1) * ((1 - q) * (1 - q))))
      by ring.
    rewrite E. lra.
Qed.

Lemma geometric_below (q c epsilon : Q) :
  0 <= q -> q < 1 -> 0 <= c -> 0 < epsilon ->
  exists n, c * Qpow_nat q n < epsilon.
Proof.
  intros H0 H1 Hc Heps.
  assert (Hr : 0 < epsilon * (1 - q)) by nra.
  destruct (Qarchimedean (c / (epsilon * (1 - q)))) as [p Hp].
  exists (Pos.to_nat p).
  assert (HN : inject_Z (Z.of_nat (Pos.to_nat p)) == Z.pos p # 1)
    by (rewrite positive_nat_Z; reflexivity).
  pose proof (Qpow_nat_bernoulli q (Pos.to_nat p) H0 (Qlt_le_weak _ _ H1)) as Hb.
  pose proof (Qpow_nat_nonneg q (Pos.to_nat p) H0) as Hg.
  rewrite HN in Hb.
  set (G := Qpow_nat q (Pos.to_nat p)) in *. set (N := Z.pos p # 1) in *.
  assert (Hcn : c < N * (epsilon * (1 - q))).
  { assert (E : c == c / (epsilon * (1 - q)) * (epsilon * (1 - q)))
      by (field; lra).
    rewrite E at 1. apply Qmult_lt_compat_r; assumption. }
  assert (HB : 0 < 1 + N * (1 - q)).
  { assert (0 <= N) by (unfold N; discriminate). nra. }
  apply (Qmult_lt_r _ _ (1 + N * (1 - q)) HB).
  assert (H1' : c * (G * (1 + N * (1 - q))) <= c) by nra.
  nra.
Qed.

Lemma vi_loop_more_fuel (n m : nat) (mdp : MDP) (gamma epsilon : Q)
    (us : Dict.t Q) (r : result vi_locals) :
  vi_loop n mdp gamma epsilon us = Some r -> (n <= m)%nat ->
  vi_loop m mdp gamma epsilon us = Some r.
Proof.
  revert m us. induction n as [| n IH]; intros m us H Hle; [discriminate |].
  destruct m as [| m]; [lia |]. cbn [vi_loop] in *.
  destruct (sweep mdp gamma us) as [[[u us'] d] | e]; [| exact H].
  destruct (Qltb d epsilon); [exact H |]. apply IH; [exact H | lia].
Qed.

(** ** The script *)

(** X15: the script's run ends without an exception: [value_iteration]
    returns for the 3 x 2 grid with gamma = 0.9 and epsilon = 0.01, and
    [ascii_grid] finds all six cells in what it returned. *)
Theorem main_prints_grid (fmt : Q -> string) :
  exists fuel out,
    forall fuel', (fuel <= fuel')%nat -> main fmt fuel' = Some (Ok out).
Proof.
  set (U0' := Dict.from_keys (get_states gridworld) 0).
  assert (Hact : actions gridworld <> []) by discriminate.
  assert (Hk0 : has_keys U0' (get_states gridworld))
    by apply has_keys_from_keys.
  destruct (geometric_below GAMMA
              (fold_left (delta_step gridworld GAMMA U0') (get_states gridworld) 0)
              EPSILON) as [n Hn];
    [discriminate | reflexivity | apply fold_delta_nonneg | reflexivity |].
  destruct (vi_loop_returns_within 3 2 [((1, 3)%Z, -2); ((2, 3)%Z, 2)]
              [(1, 3)%Z; (2, 3)%Z] (8#10) (1#10) 0 GAMMA) with (n := n)
      (epsilon := EPSILON) (U := U0') as [l Hl];
    [discriminate | discriminate | discriminate | discriminate
    | exact Hk0 | exact Hn |].
  assert (Hkeys : Dict.keys (utility l) = get_states gridworld).
  { rewrite (vi_loop_keys_eq _ _ _ _ _ _ Hact Hk0 Hl).
    apply keys_from_keys, NoDup_build_states. }
  destruct (ascii_grid_ok fmt (utility l)) as [out Hout].
  { intros c Hin. apply in_keys_find. rewrite Hkeys.
    vm_compute in Hin |- *. tauto. }
  exists (S n), out. intros fuel' Hle.
  unfold main, value_iteration, vi_run. fold U0'.
  rewrite (vi_loop_more_fuel (S n) fuel' gridworld GAMMA EPSILON U0' _ Hl Hle).
  now rewrite Hout.
Qed.

Lemma main_prints_grid_witness :
  exists fuel out,
    forall fuel', (fuel <= fuel')%nat ->
      main (fun _ => EmptyString) fuel' = Some (Ok out).
Proof. exact (main_prints_grid (fun _ => EmptyString)). Defined.

(** * The code over binary64 *)

(** ** The order of binary64 numbers *)

Lemma SFltb_trans (x y z : spec_float) :
  SFltb x y = true -> SFltb y z = true -> SFltb x z = true.
Proof.
  unfold SFltb, SFcompare.
  destruct x as [sx | sx | | sx mx ex], y as [sy | sy | | sy my ey],
    z as [sz | sz | | sz mz ez];
    try destruct sx; try destruct sy; try destruct sz;
    try discriminate; try reflexivity;
    repeat match goal with
      | |- context [Z.compare ?a ?b] => destruct (Z.compare_spec a b)
      | |- context [Pos.compare_cont Eq ?a ?b] =>
          change (Pos.compare_cont Eq a b) with (Pos.compare a b);
          destruct (Pos.compare_spec a b)
      end; simpl; try discriminate; try reflexivity; intros; try lia.
Qed.

Lemma SFltb_irrefl (x : spec_float) : SFltb x x = false.
Proof.
  unfold SFltb, SFcompare.
  destruct x as [sx | sx | | sx mx ex]; try destruct sx; try reflexivity;
    change (Pos.compare_cont Eq mx mx) with (Pos.compare mx mx);
    now rewrite Z.compare_refl, Pos.compare_refl.
Qed.

Lemma SFltb_below (d r e : spec_float) :
  SFltb d r = false -> SFltb d e = true ->
  SFltb r e = true \/ r = S754_nan.
Proof.
  unfold SFltb, SFcompare.
  destruct d as [sd | sd | | sd md ed], r as [sr | sr | | sr mr er],
    e as [se | se | | se me ee];
    try destruct sd; try destruct sr; try destruct se;
    try discriminate; auto;
    repeat match goal with
      | |- context [Z.compare ?a ?b] => destruct (Z.compare_spec a b)
      | |- context [Pos.compare_cont Eq ?a ?b] =>
          change (Pos.compare_cont Eq a b) with (Pos.compare a b);
          destruct (Pos.compare_spec a b)
      end; simpl; try discriminate; auto; intros; try lia.
Qed.

Lemma b64_ltb_trans (x y z : float) :
  (x <? y)%float = true -> (y <? z)%float = true -> (x <? z)%float = true.
Proof. rewrite !ltb_spec. apply SFltb_trans. Qed.

Lemma b64_ltb_irrefl (x : float) : (x <? x)%float = false.
Proof. rewrite ltb_spec. apply SFltb_irrefl. Qed.

Lemma b64_is_nan (x : float) : Prim2SF x = S754_nan -> is_nan x = true.
Proof. intros H. unfold is_nan. now rewrite eqb_spec, H. Qed.

(** If [r] does not exceed [d] and [d] is below [e], then [r] is below [e],
    unless [r] is a NaN, which compares with nothing. *)
Lemma b64_below (d r e : float) :
  (d <? r)%float = false -> (d <? e)%float = true ->
  (r <? e)%float = true \/ is_nan r = true.
Proof.
  rewrite !ltb_spec. intros H1 H2.
  destruct (SFltb_below _ _ _ H1 H2) as [H | H]; [now left |].
  right. now apply b64_is_nan.
Qed.

(** ** One binary64 sweep *)

Lemma b64_subscript_lookup (U : Dict.t float) (s : state) :
  Dict.find U s <> None -> Dict.subscript U s = Ok (B64.lookup U s).
Proof.
  unfold Dict.subscript, B64.lookup, Dict.get.
  destruct (Dict.find U s); [reflexivity | congruence].
Qed.

Lemma b64_find_lookup (U : Dict.t float) (s : state) :
  Dict.find U s <> None -> Dict.find U s = Some (B64.lookup U s).
Proof.
  unfold B64.lookup, Dict.get.
  destruct (Dict.find U s); [reflexivity | congruence].
Qed.

Section B64Sweep.

Variables (mdp : B64.MDP) (gamma : float) (utility : Dict.t float).
Hypothesis Hkeys : B64.has_keys utility (B64.get_states mdp).
Hypothesis Hact : B64.actions mdp <> [].

Lemma b64_expected_utility_ok (s : state) (a : action) :
  B64.expected_utility mdp s utility a = Ok (B64.expect_code mdp utility s a).
Proof.
  unfold B64.expected_utility, B64.expect_code.
  generalize 0%float as acc. revert Hkeys. unfold B64.has_keys.
  generalize (B64.get_states mdp) as l.
  induction l as [| s' l IH]; intros Hk acc; simpl; [reflexivity |].
  rewrite b64_subscript_lookup by (apply Hk; now left). simpl.
  apply IH. intros k Hin. apply Hk. now right.
Qed.

Lemma b64_get_transition_probs_ok (s : state) :
  B64.get_transition_probs mdp s utility
  = Ok (map (B64.expect_code mdp utility s) (B64.actions mdp)).
Proof.
  unfold B64.get_transition_probs, B64.get_actions.
  assert (G : forall l acc,
             for_each
               (fun transition_probs a =>
                  sum <- B64.expected_utility mdp s utility a ;;
                  Ok (transition_probs ++ [sum])) l acc
             = Ok (acc ++ map (B64.expect_code mdp utility s) l)).
  { induction l as [| a l IH]; intros acc; simpl.
    - now rewrite app_nil_r.
    - rewrite b64_expected_utility_ok. simpl.
      rewrite IH, <- app_assoc. reflexivity. }
  apply G.
Qed.

Lemma b64_py_max_ok (s : state) :
  B64.py_max (map (B64.expect_code mdp utility s) (B64.actions mdp))
  = Ok (B64.max_list (map (B64.expect_code mdp utility s) (B64.actions mdp))).
Proof. destruct (B64.actions mdp); [congruence | reflexivity]. Qed.

Lemma b64_sweep_body_ok (us : Dict.t float) (delta : float) (s : state) :
  In s (B64.get_states mdp) ->
  B64.sweep_body mdp gamma utility (us, delta) s
  = Ok (Dict.set us s (B64.backup_code mdp gamma utility s),
        B64.delta_step mdp gamma utility delta s).
Proof.
  intros Hin. unfold B64.sweep_body.
  rewrite b64_get_transition_probs_ok. cbn [bind].
  rewrite b64_py_max_ok. cbn [bind]. fold (B64.backup_code mdp gamma utility s).
  unfold Dict.subscript at 1 3. rewrite find_set_same. cbn [bind].
  rewrite b64_subscript_lookup by (apply Hkeys, Hin). cbn [bind].
  unfold B64.delta_step. destruct (PrimFloat.ltb delta _); reflexivity.
Qed.

Lemma b64_for_each_sweep_ok (l : list state) (us : Dict.t float)
    (delta : float) :
  incl l (B64.get_states mdp) ->
  for_each (B64.sweep_body mdp gamma utility) l (us, delta)
  = Ok (fold_left
          (fun d s => Dict.set d s (B64.backup_code mdp gamma utility s)) l us,
        fold_left (B64.delta_step mdp gamma utility) l delta).
Proof.
  revert us delta.
  induction l as [| s l IH]; intros us delta Hincl; cbn [for_each fold_left].
  - reflexivity.
  - rewrite b64_sweep_body_ok by (apply Hincl; now left). cbn [bind].
    apply IH. intros k Hk. apply Hincl. now right.
Qed.

Lemma b64_sweep_ok :
  B64.sweep mdp gamma utility
  = Ok (utility,
        fold_left
          (fun d s => Dict.set d s (B64.backup_code mdp gamma utility s))
          (B64.get_states mdp) utility,
        fold_left (B64.delta_step mdp gamma utility) (B64.get_states mdp)
          0%float).
Proof.
  unfold B64.sweep, Dict.copy.
  rewrite b64_for_each_sweep_ok by apply incl_refl. reflexivity.
Qed.

Lemma b64_find_fold_set (l : list state) (us : Dict.t float) (k : state) :
  Dict.find
    (fold_left
       (fun d s => Dict.set d s (B64.backup_code mdp gamma utility s)) l us) k
  = if in_dec state_eq_dec k l
    then Some (B64.backup_code mdp gamma utility k)
    else Dict.find us k.
Proof.
  revert us. induction l as [| s l IH]; intros us; simpl; [reflexivity |].
  rewrite IH. destruct (in_dec state_eq_dec k l) as [Hin | Hnin].
  - destruct (state_eq_dec s k); reflexivity.
  - rewrite find_set. destruct (state_eq_dec s k) as [-> | Hne].
    + now rewrite state_eqb_refl.
    + now rewrite state_eqb_neq.
Qed.

(** A change that [delta] does not fall short of stays so as [delta] is
    raised by later states. *)
Lemma b64_delta_step_keeps (delta r : float) (s : state) :
  (delta <? r)%float = false ->
  (B64.delta_step mdp gamma utility delta s <? r)%float = false.
Proof.
  intros H. unfold B64.delta_step.
  set (r' := abs (B64.backup_code mdp gamma utility s - B64.lookup utility s)).
  destruct (PrimFloat.ltb delta r') eqn:E; [| exact H].
  destruct (PrimFloat.ltb r' r) eqn:E'; [| reflexivity].
  rewrite (b64_ltb_trans _ _ _ E E') in H. discriminate.
Qed.

Lemma b64_fold_delta_keeps (l : list state) (delta r : float) :
  (delta <? r)%float = false ->
  (fold_left (B64.delta_step mdp gamma utility) l delta <? r)%float = false.
Proof.
  revert delta. induction l as [| s l IH]; intros delta H; cbn [fold_left].
  - exact H.
  - apply IH, b64_delta_step_keeps, H.
Qed.

Lemma b64_fold_delta_bound (l : list state) (delta : float) (s : state) :
  In s l ->
  (fold_left (B64.delta_step mdp gamma utility) l delta
   <? abs (B64.backup_code mdp gamma utility s - B64.lookup utility s))%float
  = false.
Proof.
  revert delta. induction l as [| s0 l IH]; intros delta Hin; [contradiction |].
  cbn [fold_left]. destruct Hin as [-> | Hin]; [| now apply IH].
  apply b64_fold_delta_keeps. unfold B64.delta_step.
  set (r := abs (B64.backup_code mdp gamma utility s - B64.lookup utility s)).
  destruct (PrimFloat.ltb delta r) eqn:E; [apply b64_ltb_irrefl | exact E].
Qed.

End B64Sweep.

(** ** The binary64 loop *)

Lemma b64_sweep_snapshot (mdp : B64.MDP) (gamma : float)
    (us u us' : Dict.t float) (d : float) :
  B64.sweep mdp gamma us = Ok (u, us', d) -> u = us.
Proof.
  unfold B64.sweep, Dict.copy.
  destruct (for_each _ _ _) as [[? ?] |]; simpl; congruence.
Qed.

Lemma b64_has_keys_from_keys (ks : list state) :
  B64.has_keys (Dict.from_keys ks 0%float) ks.
Proof.
  intros s Hin. rewrite find_from_keys.
  destruct (in_dec state_eq_dec s ks); [discriminate | contradiction].
Qed.

Lemma b64_has_keys_sweep (mdp : B64.MDP) (gamma : float)
    (u u' us' : Dict.t float) (d : float) :
  B64.actions mdp <> [] ->
  B64.has_keys u (B64.get_states mdp) ->
  B64.sweep mdp gamma u = Ok (u', us', d) ->
  B64.has_keys us' (B64.get_states mdp).
Proof.
  intros Hact Hk Hs. rewrite (b64_sweep_ok mdp gamma u Hk Hact) in Hs.
  inversion Hs; subst. intros s Hin. rewrite b64_find_fold_set.
  destruct (in_dec state_eq_dec s (B64.get_states mdp));
    [discriminate | contradiction].
Qed.

(** When the binary64 loop is left, [utility] has every grid state, the last
    sweep read it, and that sweep's [delta] compared below [epsilon]. *)
Lemma b64_vi_loop_exit (fuel : nat) (mdp : B64.MDP) (gamma epsilon : float)
    (us : Dict.t float) (l : B64.vi_locals) :
  B64.actions mdp <> [] ->
  B64.has_keys us (B64.get_states mdp) ->
  B64.vi_loop fuel mdp gamma epsilon us = Some (Ok l) ->
  B64.has_keys (B64.utility l) (B64.get_states mdp)
  /\ B64.sweep mdp gamma (B64.utility l)
     = Ok (B64.utility l, B64.utility_step l, B64.delta l)
  /\ (B64.delta l <? epsilon)%float = true.
Proof.
  intros Hact. revert us.
  induction fuel as [| fuel IH]; intros us Hk; simpl; [discriminate |].
  destruct (B64.sweep mdp gamma us) as [[[u us'] d] | e] eqn:Es;
    [| discriminate].
  pose proof (b64_sweep_snapshot _ _ _ _ _ _ Es) as ->.
  destruct (PrimFloat.ltb d epsilon) eqn:Ed.
  - intros H. inversion H; subst; simpl. auto.
  - intros H. apply (IH us'); [| exact H].
    eapply b64_has_keys_sweep; eassumption.
Qed.

Lemma b64_vi_loop_no_raise (fuel : nat) (mdp : B64.MDP) (gamma epsilon : float)
    (us : Dict.t float) (e : exn) :
  B64.actions mdp <> [] ->
  B64.has_keys us (B64.get_states mdp) ->
  B64.vi_loop fuel mdp gamma epsilon us <> Some (Raise e).
Proof.
  intros Hact. revert us.
  induction fuel as [| fuel IH]; intros us Hk; simpl; [discriminate |].
  pose proof (b64_sweep_ok mdp gamma us Hk Hact) as Es. rewrite Es.
  destruct (PrimFloat.ltb _ epsilon); [discriminate |].
  apply IH. eapply b64_has_keys_sweep; eassumption.
Qed.

Lemma b64_value_iteration_locals (fuel : nat) (mdp : B64.MDP)
    (gamma epsilon : float) (U : Dict.t float) :
  B64.value_iteration fuel mdp gamma epsilon = Some (Ok U) ->
  exists l, B64.vi_run fuel mdp gamma epsilon = Some (Ok l) /\ B64.utility l = U.
Proof.
  unfold B64.value_iteration.
  destruct (B64.vi_run fuel mdp gamma epsilon) as [[l | e] |];
    try discriminate.
  intros H. inversion H. eauto.
Qed.

(** ** The returned mapping is an epsilon-approximate fixed point *)

(** C7, as the code has it: for the mapping [U] that [value_iteration]
    returns and every grid state [s], the binary64 number
    [r = |reward(s) + gamma * max(get_transition_probs(s, U)) - U[s]|],
    computed with the rounded operations of the sweep, compares below
    [epsilon], unless [r] is a NaN. *)
Theorem b64_returned_is_epsilon_fixed_point num_rows num_cols rw tm pf ps rd
    (fuel : nat) (gamma epsilon : float) (U : Dict.t float) :
  let mdp := B64.MDP_init num_rows num_cols rw tm pf ps rd in
  B64.value_iteration fuel mdp gamma epsilon = Some (Ok U) ->
  forall s, In s (B64.get_states mdp) ->
    exists u probs m,
      Dict.find U s = Some u
      /\ B64.get_transition_probs mdp s U = Ok probs
      /\ B64.py_max probs = Ok m
      /\ ((abs (B64.get_reward mdp s + gamma * m - u) <? epsilon)%float = true
          \/ is_nan (abs (B64.get_reward mdp s + gamma * m - u))%float = true).
Proof.
  intros mdp H s Hin.
  assert (Hact : B64.actions mdp <> []) by discriminate.
  apply b64_value_iteration_locals in H as (l & Hrun & <-).
  destruct (b64_vi_loop_exit _ _ _ _ _ _ Hact
              (b64_has_keys_from_keys (B64.get_states mdp)) Hrun)
    as (Hk & Hs & Hd).
  rewrite (b64_sweep_ok mdp gamma (B64.utility l) Hk Hact) in Hs.
  assert (Hdelta : fold_left (B64.delta_step mdp gamma (B64.utility l))
                     (B64.get_states mdp) 0%float = B64.delta l) by congruence.
  exists (B64.lookup (B64.utility l) s),
    (map (B64.expect_code mdp (B64.utility l) s) (B64.actions mdp)),
    (B64.max_list (map (B64.expect_code mdp (B64.utility l) s) (B64.actions mdp))).
  split; [apply b64_find_lookup, Hk, Hin |].
  split; [apply (b64_get_transition_probs_ok mdp (B64.utility l) Hk) |].
  split; [apply (b64_py_max_ok mdp (B64.utility l) Hact) |].
  pose proof (b64_fold_delta_bound mdp gamma (B64.utility l)
                (B64.get_states mdp) 0%float s Hin) as Hb.
  rewrite Hdelta in Hb.
  exact (b64_below _ _ _ Hb Hd).
Qed.

Lemma b64_returned_is_epsilon_fixed_point_witness :
  B64.value_iteration 2 B64.grid11 B64.dec_0_9 B64.dec_0_9
  = Some (Ok [((1, 1)%Z, 1%float)])
  /\ In (1, 1)%Z (B64.get_states B64.grid11)
  /\ exists u probs m,
       Dict.find [((1, 1)%Z, 1%float)] (1, 1)%Z = Some u
       /\ B64.get_transition_probs B64.grid11 (1, 1)%Z [((1, 1)%Z, 1%float)]
          = Ok probs
       /\ B64.py_max probs = Ok m
       /\ ((abs (B64.get_reward B64.grid11 (1, 1)%Z + B64.dec_0_9 * m - u)
            <? B64.dec_0_9)%float = true
           \/ is_nan (abs (B64.get_reward B64.grid11 (1, 1)%Z
                           + B64.dec_0_9 * m - u))%float = true).
Proof.
  assert (H : B64.value_iteration 2 B64.grid11 B64.dec_0_9 B64.dec_0_9
              = Some (Ok [((1, 1)%Z, 1%float)])) by (vm_compute; reflexivity).
  assert (Hin : In (1, 1)%Z (B64.get_states B64.grid11)) by (vm_compute; auto).
  split; [exact H |]. split; [exact Hin |].
  exact (b64_returned_is_epsilon_fixed_point 1 1 [((1, 1)%Z, 1%float)] []
           B64.dec_0_8 B64.dec_0_1 0%float 2 B64.dec_0_9 B64.dec_0_9 _ H
           (1, 1)%Z Hin).
Defined.

(** C7 as stated fails: on the 1 x 1 grid with reward 1, probabilities
    0.8/0.1 and gamma = epsilon = 0.9, the second sweep's rounded delta
    0.8999999999999999 is below 0.9 and the loop returns {(1,1): 1.0};
    evaluated without rounding, |U - backup(U)| at (1, 1) is the number
    epsilon itself, not less. *)
Lemma exact_residual_counterexample :
  B64.vi_run 2 B64.grid11 B64.dec_0_9 B64.dec_0_9
  = Some (Ok {| B64.utility := [((1, 1)%Z, 1%float)];
                B64.utility_step := [((1, 1)%Z, 0x1.e666666666666p+0%float)];
                B64.delta := 0x1.cccccccccccccp-1%float |})
  /\ B64.value_iteration 2 B64.grid11 B64.dec_0_9 B64.dec_0_9
     = Some (Ok [((1, 1)%Z, 1%float)])
  /\ In (1, 1)%Z (B64.get_states B64.grid11)
  /\ Qabs (B64.F2Q (B64.lookup [((1, 1)%Z, 1%float)] (1, 1)%Z)
           - B64.exact_bellman_backup B64.grid11 B64.dec_0_9
               [((1, 1)%Z, 1%float)] (1, 1)%Z)
     == B64.F2Q B64.dec_0_9
  /\ ~ Qabs (B64.F2Q (B64.lookup [((1, 1)%Z, 1%float)] (1, 1)%Z)
             - B64.exact_bellman_backup B64.grid11 B64.dec_0_9
                 [((1, 1)%Z, 1%float)] (1, 1)%Z)
       < B64.F2Q B64.dec_0_9.
Proof.
  split; [vm_compute; reflexivity |]. split; [vm_compute; reflexivity |].
  split; [vm_compute; auto |].
  split; [vm_compute; reflexivity |].
  vm_compute. discriminate.
Qed.

(** ** No missing key, no empty maximum *)

(** X2: on a grid built by the constructor the binary64 [value_iteration]
    raises neither [KeyError] nor [ValueError], whatever the rewards, the
    probabilities, gamma and epsilon are (infinities and NaN included):
    every key it subscripts is a grid state of the mapping, and [max] always
    gets four numbers. *)
Theorem b64_no_key_error_no_value_error num_rows num_cols rw tm pf ps rd
    (fuel : nat) (gamma epsilon : float) :
  B64.value_iteration fuel (B64.MDP_init num_rows num_cols rw tm pf ps rd)
    gamma epsilon <> Some (Raise KeyError)
  /\ B64.value_iteration fuel (B64.MDP_init num_rows num_cols rw tm pf ps rd)
       gamma epsilon <> Some (Raise ValueError).
Proof.
  assert (G : forall e,
             B64.value_iteration fuel
               (B64.MDP_init num_rows num_cols rw tm pf ps rd) gamma epsilon
             <> Some (Raise e)).
  { intros e. unfold B64.value_iteration, B64.vi_run.
    destruct (B64.vi_loop fuel _ gamma epsilon _) as [[l | e'] |] eqn:E;
      try discriminate.
    exfalso. revert E. apply b64_vi_loop_no_raise; [discriminate |].
    apply b64_has_keys_from_keys. }
  split; apply G.
Qed.

Lemma b64_no_key_error_no_value_error_witness :
  B64.value_iteration 1 B64.grid11 B64.dec_0_9 infinity <> Some (Raise KeyError)
  /\ B64.value_iteration 1 B64.grid11 B64.dec_0_9 infinity
     <> Some (Raise ValueError).
Proof.
  exact (b64_no_key_error_no_value_error 1 1 [((1, 1)%Z, 1%float)] []
           B64.dec_0_8 B64.dec_0_1 0%float 1 B64.dec_0_9 infinity).
Defined.

(** ** Probability conservation in binary64 *)











